(** * FileStorageAdapter (lib/storage/adapters/file.js)

    A shallow embedding of the file-backed storage adapter and of the part
    of the Node.js runtime it touches (file system, path, JSON, readable
    streams), followed by the properties of its operations.

    Conventions of the embedding.
    - Strings are byte strings holding UTF-8 text, so the byte length of a
      file is the length of its content.
    - The file system is a finite map from resolved paths (lists of
      segments below "/") to nodes; symbolic links, permissions and device
      errors are not modelled, relative paths are resolved from "/", a
      path is resolved lexically (".." steps back whether or not the
      directory it leaves exists; what path.join returns has no such
      step), a trailing separator is ignored when a path is looked up, and
      a directory has size 0.
    - Names follow Linux: a path with a NUL byte names nothing, a path of
      PATH_MAX bytes or with a component over NAME_MAX bytes cannot be
      created.  Node refuses a path with a NUL byte before the call starts:
      the asynchronous calls then raise a TypeError to their caller; for
      the synchronous ones, which raise in any case, the error of a missing
      path is kept.
    - JSON numbers are integers; number literals with a fraction or an
      exponent lie outside the modelled fragment.
    - An operation runs to completion before the next one starts: the
      completion handler of an asynchronous [fs] call runs right after the
      call's effect.  What tells the two apart is kept: an exception raised
      synchronously reaches the caller, one raised inside a completion
      handler does not. *)

From Stdlib Require Import ZArith Lia Ascii String.
From stdpp Require Import base option list strings gmap.

#[local] Set Warnings "-register-all".
Local Open Scope string_scope.
Local Open Scope Z_scope.

(** ** JavaScript values and errors *)

Inductive Errno := ENOENT | EISDIR | ENOTDIR | EEXIST | ENAMETOOLONG.

Inductive Error :=
| ReferenceError (name : string)      (* an identifier with no usable binding *)
| TypeError (msg : string)
| SyntaxError (msg : string)          (* JSON.parse *)
| AssertionError (msg : string)
| SystemError (code : Errno) (syscall : string).

Inductive JSON :=
| JNull
| JBool (b : bool)
| JNum (n : Z)
| JStr (s : string)
| JArr (elems : list JSON)
| JObj (props : list (string * JSON)).

(** A plain object: its own enumerable properties, in insertion order. *)
Definition Item := list (string * JSON).

(** [o[name]]. *)
Fixpoint get_prop (o : Item) (name : string) : option JSON :=
  match o with
  | [] => None
  | (k, v) :: o' => if String.eqb k name then Some v else get_prop o' name
  end.

(** [o[name] = v]: an existing property keeps its place, a new one is added
    last. *)
Fixpoint set_prop (o : Item) (name : string) (v : JSON) : Item :=
  match o with
  | [] => [(name, v)]
  | (k, w) :: o' =>
      if String.eqb k name then (k, v) :: o' else (k, w) :: set_prop o' name v
  end.

(** [name in o] for own properties. *)
Definition has_prop (o : Item) (name : string) : bool :=
  match get_prop o name with Some _ => true | None => false end.

(** ** JSON.stringify *)

Definition hex_digit (n : N) : ascii :=
  match n with
  | 0 => "0" | 1 => "1" | 2 => "2" | 3 => "3" | 4 => "4" | 5 => "5"
  | 6 => "6" | 7 => "7" | 8 => "8" | 9 => "9" | 10 => "a" | 11 => "b"
  | 12 => "c" | 13 => "d" | 14 => "e" | _ => "f"
  end%N%char.

Definition dquote : ascii := "034"%char.

(** QuoteJSONString on one byte; bytes from 0x80 up are UTF-8 and pass. *)
Definition quote_char (c : ascii) : string :=
  let n := N_of_ascii c in
  if (n =? 34)%N then String "\" (String dquote EmptyString)
  else if (n =? 92)%N then String "\" (String "\" EmptyString)
  else if (n =? 8)%N then "\b"
  else if (n =? 12)%N then "\f"
  else if (n =? 10)%N then "\n"
  else if (n =? 13)%N then "\r"
  else if (n =? 9)%N then "\t"
  else if (n <? 32)%N then
    "\u00" +:+ String (hex_digit (n / 16)) (String (hex_digit (n mod 16)) EmptyString)
  else String c EmptyString.

Fixpoint quote_chars (s : string) : string :=
  match s with
  | EmptyString => EmptyString
  | String c s' => quote_char c +:+ quote_chars s'
  end.

Definition quote (s : string) : string :=
  String dquote (quote_chars s +:+ String dquote EmptyString).

Fixpoint digits_of_pos (fuel : nat) (n : N) (acc : string) : string :=
  match fuel with
  | O => acc
  | S fuel' =>
      let acc' := String (hex_digit (n mod 10)) acc in
      if (n <? 10)%N then acc' else digits_of_pos fuel' (n / 10) acc'
  end.

Definition number_to_string (z : Z) : string :=
  let n := Z.abs_N z in
  let ds := digits_of_pos (S (N.to_nat (N.log2 n))) n EmptyString in
  if z <? 0 then String "-" ds else ds.

Definition comma_sep (l : list string) : string :=
  match l with
  | [] => EmptyString
  | x :: xs => fold_left (fun acc y => acc +:+ "," +:+ y) xs x
  end.

Fixpoint JSON_stringify (v : JSON) : string :=
  match v with
  | JNull => "null"
  | JBool true => "true"
  | JBool false => "false"
  | JNum n => number_to_string n
  | JStr s => quote s
  | JArr l => "[" +:+ comma_sep (map JSON_stringify l) +:+ "]"
  | JObj ps =>
      "{" +:+ comma_sep (map (fun kv => quote (fst kv) +:+ ":" +:+ JSON_stringify (snd kv)) ps)
          +:+ "}"
  end.

(** ** JSON.parse *)

Definition is_ws (c : ascii) : bool :=
  let n := N_of_ascii c in
  ((n =? 32) || (n =? 9) || (n =? 10) || (n =? 13))%N.

Fixpoint skip_ws (s : string) : string :=
  match s with
  | String c s' => if is_ws c then skip_ws s' else s
  | EmptyString => s
  end.

Fixpoint strip_prefix (p s : string) : option string :=
  match p, s with
  | EmptyString, _ => Some s
  | String a p', String b s' => if Ascii.eqb a b then strip_prefix p' s' else None
  | String _ _, EmptyString => None
  end.

Definition hex_value (c : ascii) : option N :=
  let n := N_of_ascii c in
  if ((48 <=? n) && (n <=? 57))%N then Some (n - 48)%N
  else if ((97 <=? n) && (n <=? 102))%N then Some (n - 87)%N
  else if ((65 <=? n) && (n <=? 70))%N then Some (n - 55)%N
  else None.

(** UTF-8 of a code point of the basic plane; the surrogate range is left
    out (pairs are not combined). *)
Definition utf8_encode (cp : N) : option string :=
  let byte n := ascii_of_N n in
  if (cp <? 128)%N then Some (String (byte cp) EmptyString)
  else if (cp <? 2048)%N then
    Some (String (byte (192 + cp / 64)%N) (String (byte (128 + cp mod 64)%N) EmptyString))
  else if ((55296 <=? cp) && (cp <=? 57343))%N then None
  else
    Some (String (byte (224 + cp / 4096)%N)
         (String (byte (128 + (cp / 64) mod 64)%N)
         (String (byte (128 + cp mod 64)%N) EmptyString))).

(** The characters of a string literal after its opening quote: the decoded
    text and what follows the closing quote. *)
Fixpoint parse_string (s : string) : option (string * string) :=
  match s with
  | EmptyString => None
  | String c r =>
      let n := N_of_ascii c in
      if (n =? 34)%N then Some (EmptyString, r)
      else if (n <? 32)%N then None
      else if (n =? 92)%N then
        match r with
        | String e r1 =>
            let simple (x : N) :=
              match parse_string r1 with
              | Some (t, rest) => Some (String (ascii_of_N x) t, rest)
              | None => None
              end in
            let m := N_of_ascii e in
            if (m =? 34)%N then simple 34%N
            else if (m =? 92)%N then simple 92%N
            else if (m =? 47)%N then simple 47%N
            else if (m =? 98)%N then simple 8%N
            else if (m =? 102)%N then simple 12%N
            else if (m =? 110)%N then simple 10%N
            else if (m =? 114)%N then simple 13%N
            else if (m =? 116)%N then simple 9%N
            else if (m =? 117)%N then
              match r1 with
              | String h1 (String h2 (String h3 (String h4 r2))) =>
                  match hex_value h1, hex_value h2, hex_value h3, hex_value h4 with
                  | Some a, Some b, Some c', Some d =>
                      match utf8_encode (a * 4096 + b * 256 + c' * 16 + d)%N,
                            parse_string r2 with
                      | Some u, Some (t, rest) => Some (u +:+ t, rest)
                      | _, _ => None
                      end
                  | _, _, _, _ => None
                  end
              | _ => None
              end
            else None
        | EmptyString => None
        end
      else
        match parse_string r with
        | Some (t, rest) => Some (String c t, rest)
        | None => None
        end
  end.

Definition is_digit (c : ascii) : bool :=
  let n := N_of_ascii c in ((48 <=? n) && (n <=? 57))%N.

Fixpoint parse_digits (s : string) (acc : N) : N * string :=
  match s with
  | String c r =>
      if is_digit c then parse_digits r (acc * 10 + (N_of_ascii c - 48))%N
      else (acc, s)
  | EmptyString => (acc, s)
  end.

(** An integer literal: an optional minus, then "0" or a digit string with
    no leading zero; a fraction or an exponent is refused. *)
Definition parse_number (s : string) : option (JSON * string) :=
  let '(neg, s1) :=
    match s with
    | String c r => if (N_of_ascii c =? 45)%N then (true, r) else (false, s)
    | EmptyString => (false, s)
    end in
  match s1 with
  | String d r =>
      if is_digit d then
        let '(n, rest) :=
          if (N_of_ascii d =? 48)%N then (0%N, r) else parse_digits s1 0%N in
        let stop :=
          match rest with
          | String x _ =>
              let m := N_of_ascii x in
              is_digit x || (m =? 46)%N || (m =? 101)%N || (m =? 69)%N
          | EmptyString => false
          end in
        if stop then None
        else Some (JNum (if neg then - Z.of_N n else Z.of_N n), rest)
      else None
  | EmptyString => None
  end.

Fixpoint parse_value (fuel : nat) (s : string) : option (JSON * string) :=
  match fuel with
  | O => None
  | S f =>
      match skip_ws s with
      | EmptyString => None
      | String c r as s0 =>
          let n := N_of_ascii c in
          if (n =? 123)%N then
            match skip_ws r with
            | String c1 r1 as s1 =>
                if (N_of_ascii c1 =? 125)%N then Some (JObj [], r1)
                else parse_members f s1 []
            | EmptyString => None
            end
          else if (n =? 91)%N then
            match skip_ws r with
            | String c1 r1 as s1 =>
                if (N_of_ascii c1 =? 93)%N then Some (JArr [], r1)
                else parse_elems f s1 []
            | EmptyString => None
            end
          else if (n =? 34)%N then
            match parse_string r with
            | Some (t, rest) => Some (JStr t, rest)
            | None => None
            end
          else
            match strip_prefix "true" s0, strip_prefix "false" s0, strip_prefix "null" s0 with
            | Some rest, _, _ => Some (JBool true, rest)
            | _, Some rest, _ => Some (JBool false, rest)
            | _, _, Some rest => Some (JNull, rest)
            | _, _, _ => parse_number s0
            end
      end
  end
with parse_elems (fuel : nat) (s : string) (acc : list JSON) : option (JSON * string) :=
  match fuel with
  | O => None
  | S f =>
      match parse_value f s with
      | Some (v, r) =>
          match skip_ws r with
          | String c r1 =>
              if (N_of_ascii c =? 44)%N then parse_elems f r1 (acc ++ [v])
              else if (N_of_ascii c =? 93)%N then Some (JArr (acc ++ [v]), r1)
              else None
          | EmptyString => None
          end
      | None => None
      end
  end
with parse_members (fuel : nat) (s : string) (acc : Item) : option (JSON * string) :=
  match fuel with
  | O => None
  | S f =>
      match skip_ws s with
      | String q r =>
          if (N_of_ascii q =? 34)%N then
            match parse_string r with
            | Some (k, r1) =>
                match skip_ws r1 with
                | String c r2 =>
                    if (N_of_ascii c =? 58)%N then
                      match parse_value f r2 with
                      | Some (v, r3) =>
                          match skip_ws r3 with
                          | String d r4 =>
                              if (N_of_ascii d =? 44)%N then
                                parse_members f r4 (set_prop acc k v)
                              else if (N_of_ascii d =? 125)%N then
                                Some (JObj (set_prop acc k v), r4)
                              else None
                          | EmptyString => None
                          end
                      | None => None
                      end
                    else None
                | EmptyString => None
                end
            | None => None
            end
          else None
      | EmptyString => None
      end
  end.

(** [JSON.parse(text)]: the value, or the SyntaxError it throws. *)
Definition JSON_parse (text : string) : Error + JSON :=
  match parse_value (2 * String.length text + 2) text with
  | Some (v, rest) =>
      match skip_ws rest with
      | EmptyString => inr v
      | String _ _ => inl (SyntaxError "Unexpected non-whitespace character after JSON")
      end
  | None => inl (SyntaxError "Unexpected token in JSON")
  end.

(** ** path.join (POSIX) *)

Definition slash : ascii := "/"%char.

Fixpoint split_slash (s : string) : list string :=
  match s with
  | EmptyString => [EmptyString]
  | String c r =>
      if Ascii.eqb c slash then EmptyString :: split_slash r
      else match split_slash r with
           | seg :: rest => String c seg :: rest
           | [] => [String c EmptyString]
           end
  end.

Definition join_slash (segs : list string) : string :=
  match segs with
  | [] => EmptyString
  | x :: xs => fold_left (fun acc y => acc +:+ "/" +:+ y) xs x
  end.

(** One step of normalizeString: [res] is the result so far. *)
Definition normalize_step (allowAboveRoot : bool) (res : list string) (seg : string)
  : list string :=
  if String.eqb seg "" || String.eqb seg "." then res
  else if String.eqb seg ".." then
    match last res with
    | Some l =>
        if String.eqb l ".." then (if allowAboveRoot then res ++ [".."] else res)
        else removelast res
    | None => if allowAboveRoot then [".."] else []
    end
  else res ++ [seg].

Definition starts_with_slash (p : string) : bool :=
  match p with String c _ => Ascii.eqb c slash | EmptyString => false end.

Fixpoint ends_with_slash (p : string) : bool :=
  match p with
  | EmptyString => false
  | String c EmptyString => Ascii.eqb c slash
  | String _ r => ends_with_slash r
  end.

Definition path_normalize (p : string) : string :=
  if String.eqb p "" then "."
  else
    let isAbsolute := starts_with_slash p in
    let trailingSeparator := ends_with_slash p in
    let body := join_slash (fold_left (normalize_step (negb isAbsolute)) (split_slash p) []) in
    if String.eqb body "" then
      if isAbsolute then "/" else if trailingSeparator then "./" else "."
    else
      let body := if trailingSeparator then body +:+ "/" else body in
      if isAbsolute then "/" +:+ body else body.

Definition path_join (a b : string) : string :=
  match String.eqb a "", String.eqb b "" with
  | true, true => "."
  | true, false => path_normalize b
  | false, true => path_normalize a
  | false, false => path_normalize (a +:+ "/" +:+ b)
  end.

(** ** The file system *)

Definition Path := list string.

Inductive Node := File (data : string) | Dir.

Definition resolve_step (at_ : Path) (seg : string) : Path :=
  if String.eqb seg "" || String.eqb seg "." then at_
  else if String.eqb seg ".." then removelast at_
  else (at_ ++ [seg])%list.

(** What the system resolves a path string to, from "/"; the empty string
    names nothing. *)
Definition resolve (p : string) : option Path :=
  if String.eqb p "" then None else Some (fold_left resolve_step (split_slash p) []).

Fixpoint has_nul (s : string) : bool :=
  match s with
  | EmptyString => false
  | String c r => (N_of_ascii c =? 0)%N || has_nul r
  end.

Definition NAME_MAX : nat := 255.
Definition PATH_MAX : nat := 4096.

Definition path_too_long (p : string) : bool := (PATH_MAX <=? String.length p)%nat.
Definition name_too_long (seg : string) : bool := (NAME_MAX <? String.length seg)%nat.
Arguments path_too_long : simpl never.
Arguments name_too_long : simpl never.

(** The system refuses such a path with ENAMETOOLONG. *)
Definition too_long (p : string) : bool :=
  path_too_long p || existsb name_too_long (split_slash p).

(** No component of the path is "..": the system then resolves it as
    [resolve] does. *)
Definition no_dotdot (p : string) : bool :=
  forallb (fun seg => negb (String.eqb seg "..")) (split_slash p).

(** Where a path string leads: nowhere when it holds a NUL byte. *)
Definition locate (p : string) : option Path :=
  if has_nul p then None else resolve p.

Definition node_at (fs : gmap Path Node) (at_ : Path) : option Node :=
  match at_ with
  | [] => Some Dir
  | _ => fs !! at_
  end.

Definition lookup_path (fs : gmap Path Node) (p : string) : option Node :=
  match locate p with
  | Some at_ => node_at fs at_
  | None => None
  end.

Definition child_name (d : Path) (entry : Path * Node) : option string :=
  match last (fst entry) with
  | Some name => if decide (removelast (fst entry) = d) then Some name else None
  | None => None
  end.

(** The names of the entries directly inside directory [d]. *)
Definition entries (fs : gmap Path Node) (d : Path) : list string :=
  omap (child_name d) (map_to_list fs).

Record Stats := { isDirectory : bool; size : Z }.

Definition stats_of (n : Node) : Stats :=
  match n with
  | File data => {| isDirectory := false; size := Z.of_nat (String.length data) |}
  | Dir => {| isDirectory := true; size := 0 |}
  end.

(** ** Readable streams

    A readable is kept as the calls made on it, oldest first. *)

Inductive Dest := ProcessStdout.

Inductive StreamOp :=
| OpPipe (dest : Dest)
| OpPush (chunk : option string).   (* [None]: push(null), no more data *)

Definition Readable := list StreamOp.

Definition pushed (r : Readable) : list string :=
  omap (fun op => match op with OpPush (Some c) => Some c | _ => None end) r.

Definition ended (r : Readable) : bool :=
  existsb (fun op => match op with OpPush None => true | _ => false end) r.

Definition piped_to (r : Readable) (d : Dest) : bool :=
  existsb (fun op => match op, d with
                     | OpPipe ProcessStdout, ProcessStdout => true
                     | OpPush _, _ => false
                     end) r.

(** ** Program state *)

Record Adapter := {
  _path : string;
  _isOpen : bool;
  _lastTimeSize : option Z;
  _storageSize : Z
}.

Record State := {
  this : Adapter;                 (* the adapter the operations are called on *)
  fs : gmap Path Node;
  heap : list Item;               (* objects, addressed by position *)
  streams : list Readable;        (* readables, addressed by position *)
  stdout : list string            (* chunks written to process.stdout *)
}.

Definition with_this (a : Adapter) (st : State) : State :=
  {| this := a; fs := fs st; heap := heap st; streams := streams st; stdout := stdout st |}.
Definition with_fs (f : gmap Path Node) (st : State) : State :=
  {| this := this st; fs := f; heap := heap st; streams := streams st; stdout := stdout st |}.
Definition with_heap (h : list Item) (st : State) : State :=
  {| this := this st; fs := fs st; heap := h; streams := streams st; stdout := stdout st |}.
Definition with_streams (s : list Readable) (st : State) : State :=
  {| this := this st; fs := fs st; heap := heap st; streams := s; stdout := stdout st |}.
Definition with_stdout (o : list string) (st : State) : State :=
  {| this := this st; fs := fs st; heap := heap st; streams := streams st; stdout := o |}.

(** ** Computations: state and exceptions *)

Inductive Res (A : Type) :=
| Val (a : A)
| Exn (e : Error).
Arguments Val {A} a.
Arguments Exn {A} e.

Definition M (A : Type) : Type := State -> Res A * State.

Definition ret {A} (a : A) : M A := fun st => (Val a, st).
Definition throw {A} (e : Error) : M A := fun st => (Exn e, st).
Definition bind {A B} (m : M A) (k : A -> M B) : M B :=
  fun st =>
    match m st with
    | (Val a, st') => k a st'
    | (Exn e, st') => (Exn e, st')
    end.
Definition gets {A} (f : State -> A) : M A := fun st => (Val (f st), st).
Definition modify (f : State -> State) : M unit := fun st => (Val tt, f st).

Declare Scope js_scope.
Delimit Scope js_scope with js.
Notation "x <- c ;; k" := (bind c (fun x => k))
  (at level 100, c at next level, right associativity) : js_scope.
Notation "c ;;; k" := (bind c (fun _ => k))
  (at level 100, right associativity) : js_scope.
Local Open Scope js_scope.

(** [array.forEach] whose body updates an accumulator. *)
Fixpoint forEach {A B} (l : list A) (body : B -> A -> M B) (acc : B) : M B :=
  match l with
  | [] => ret acc
  | x :: l' => acc' <- body acc x ;; forEach l' body acc'
  end.

(** Reading an identifier that has no binding in scope, or a [let] binding
    inside its own initialiser: a ReferenceError.  The type of the value the
    source goes on to use is kept so that the rest of the body is embedded
    as written. *)
Definition unbound {A} (name : string) : M A := throw (ReferenceError name).

(** What the caller of an operation that takes a completion callback
    observes: the callback invoked with [(err, value)], or an exception
    raised inside a completion handler, which reaches no caller.  An
    exception raised before the operation returns is [Exn]. *)
Inductive Outcome (A : Type) :=
| Called (err : option Error) (value : option A)
| Uncaught (e : Error).
Arguments Called {A} err value.
Arguments Uncaught {A} e.

Definition Callback (A R : Type) : Type := option Error -> option A -> M (Outcome R).

(** The callback of the outermost caller. *)
Definition report {A} : Callback A A := fun err value => ret (Called err value).

(** Runs a completion handler: an exception it raises is not the caller's. *)
Definition handler {R} (h : M (Outcome R)) : M (Outcome R) :=
  fun st =>
    match h st with
    | (Exn e, st') => (Val (Uncaught e), st')
    | r => r
    end.

(** ** The runtime calls the adapter makes *)

Definition lift {A} (r : Error + A) : M A :=
  match r with
  | inr a => ret a
  | inl e => throw e
  end.

Definition stat_path (f : gmap Path Node) (p : string) : Error + Stats :=
  match lookup_path f p with
  | Some n => inr (stats_of n)
  | None => inl (SystemError ENOENT "stat")
  end.

Definition read_dir (f : gmap Path Node) (p : string) : Error + list string :=
  match locate p with
  | Some d =>
      match node_at f d with
      | Some Dir => inr (entries f d)
      | Some (File _) => inl (SystemError ENOTDIR "scandir")
      | None => inl (SystemError ENOENT "scandir")
      end
  | None => inl (SystemError ENOENT "scandir")
  end.

(** [fs.statSync(p)]. *)
Definition fs_statSync (p : string) : M Stats :=
  fun st => lift (stat_path (fs st) p) st.

(** [fs.readdirSync(p)]. *)
Definition fs_readdirSync (p : string) : M (list string) :=
  fun st => lift (read_dir (fs st) p) st.

Definition read_file (f : gmap Path Node) (p : string) : Error + string :=
  match lookup_path f p with
  | Some (File data) => inr data
  | Some Dir => inl (SystemError EISDIR "read")
  | None => inl (SystemError ENOENT "open")
  end.

(** Node's refusal of a path argument that holds a NUL byte. *)
Definition invalid_path_arg : Error :=
  TypeError "The argument 'path' must be a string, Uint8Array, or URL without null bytes".

(** Opening a path for writing, creating the file: a directory is not
    written to; the parent has to be a directory; a path that is too long
    is refused; with a trailing separator the path is taken for a
    directory. *)
Definition write_file (f : gmap Path Node) (p : string) (data : string)
  : Error + gmap Path Node :=
  match locate p with
  | None => inl (if has_nul p then invalid_path_arg else SystemError ENOENT "open")
  | Some at_ =>
      match node_at f at_ with
      | Some Dir => inl (SystemError EISDIR "open")
      | found =>
          match node_at f (removelast at_) with
          | Some Dir =>
              if too_long p then inl (SystemError ENAMETOOLONG "open")
              else if ends_with_slash p then
                inl (SystemError (match found with
                                  | Some (File _) => ENOTDIR
                                  | _ => EISDIR
                                  end) "open")
              else inr (<[at_ := File data]> f)
          | Some (File _) => inl (SystemError ENOTDIR "open")
          | None => inl (SystemError ENOENT "open")
          end
      end
  end.

Definition unlink_file (f : gmap Path Node) (p : string) : Error + gmap Path Node :=
  match locate p with
  | None => inl (SystemError ENOENT "unlink")
  | Some at_ =>
      match node_at f at_ with
      | Some (File _) => inr (delete at_ f)
      | Some Dir => inl (SystemError EISDIR "unlink")
      | None => inl (SystemError ENOENT "unlink")
      end
  end.

(** [fs.readFile(p, 'utf8', cb)]. *)
Definition fs_readFile {R} (p : string) (cb : Callback string R) : M (Outcome R) :=
  fun st =>
    if has_nul p then (Exn invalid_path_arg, st)
    else
      match read_file (fs st) p with
      | inr data => handler (cb None (Some data)) st
      | inl err => handler (cb (Some err) None) st
      end.

(** [fs.writeFile(p, data, cb)]. *)
Definition fs_writeFile {R} (p : string) (data : string) (cb : Callback unit R)
  : M (Outcome R) :=
  fun st =>
    if has_nul p then (Exn invalid_path_arg, st)
    else
      match write_file (fs st) p data with
      | inr f' => handler (cb None None) (with_fs f' st)
      | inl err => handler (cb (Some err) None) st
      end.

(** [fs.unlink(p, cb)]. *)
Definition fs_unlink {R} (p : string) (cb : Callback unit R) : M (Outcome R) :=
  fun st =>
    if has_nul p then (Exn invalid_path_arg, st)
    else
      match unlink_file (fs st) p with
      | inr f' => handler (cb None None) (with_fs f' st)
      | inl err => handler (cb (Some err) None) st
      end.

(** The directories [todo] below [at_], outermost first: the missing ones
    are made; the first that cannot be stops the walk, with the file
    system as it then is. *)
Fixpoint mkdirs (f : gmap Path Node) (at_ : Path) (todo : list string)
  : Error * gmap Path Node + gmap Path Node :=
  match todo with
  | [] => inr f
  | seg :: rest =>
      let d := (at_ ++ [seg])%list in
      match node_at f d with
      | Some Dir => mkdirs f d rest
      | Some (File _) =>
          inl (SystemError (match rest with [] => EEXIST | _ => ENOTDIR end) "mkdir", f)
      | None =>
          if name_too_long seg
          then inl (SystemError ENAMETOOLONG "mkdir", f)
          else mkdirs (<[d := Dir]> f) d rest
      end
  end.

(** [mkdirp.sync(p)]: the directory and its missing parents. *)
Definition mkdirp_sync (p : string) : M unit :=
  fun st =>
    match locate p with
    | None => (Exn (if has_nul p then invalid_path_arg else SystemError ENOENT "mkdir"), st)
    | Some at_ =>
        if path_too_long p
        then (Exn (SystemError ENAMETOOLONG "mkdir"), st)
        else
          match mkdirs (fs st) [] at_ with
          | inr f' => (Val tt, with_fs f' st)
          | inl (err, f') => (Exn err, with_fs f' st)
          end
    end.

Definition assert (cond : bool) (msg : string) : M unit :=
  if cond then ret tt else throw (AssertionError msg).

(** Objects. *)
Definition new_object (o : Item) : M nat :=
  fun st => (Val (length (heap st)), with_heap (heap st ++ [o]) st).

(** [r.name = v]. *)
Definition assign (r : nat) (name : string) (v : JSON) : M unit :=
  fun st =>
    match heap st !! r with
    | Some o => (Val tt, with_heap (<[r := set_prop o name v]> (heap st)) st)
    | None => (Exn (TypeError "Cannot set properties of undefined"), st)
    end.

(** [JSON.stringify(r)]. *)
Definition stringify_object (r : nat) : M string :=
  fun st =>
    match heap st !! r with
    | Some o => (Val (JSON_stringify (JObj o)), st)
    | None => (Exn (TypeError "The data argument must be of type string"), st)
    end.

(** Readables. *)
Definition new_Readable : M nat :=
  fun st => (Val (length (streams st)), with_streams (streams st ++ [[]]) st).

Definition stream_call (r : nat) (op : StreamOp) : M unit :=
  fun st =>
    match streams st !! r with
    | Some ops => (Val tt, with_streams (<[r := (ops ++ [op])%list]> (streams st)) st)
    | None => (Exn (TypeError "Cannot read properties of undefined"), st)
    end.

Definition pipe (r : nat) (d : Dest) : M unit := stream_call r (OpPipe d).
Definition push (r : nat) (chunk : option string) : M unit := stream_call r (OpPush chunk).

(** What a readable hands to process.stdout once it flows. *)
Definition delivered (r : Readable) : list string :=
  if piped_to r ProcessStdout then pushed r else [].

Definition flow (r : nat) (st : State) : State :=
  match streams st !! r with
  | Some ops => with_stdout (stdout st ++ delivered ops) st
  | None => st
  end.

(** Modelled from the spec: utils.existsSync is not among the sources; the
    adapter uses it both on the storage directory ("if the path does not
    exist, create it") and on the path of a key ("if a file exists at the
    path for key"), so it holds when the path names a file or a directory. *)
Definition utils_existsSync (p : string) : M bool :=
  gets (fun st => match lookup_path (fs st) p with Some _ => true | None => false end).

(** Modelled from the spec: utils.isDirectory is not among the sources;
    "then assert it is a directory". *)
Definition utils_isDirectory (p : string) : M bool :=
  gets (fun st => match lookup_path (fs st) p with Some Dir => true | _ => false end).

(** ** FileStorageAdapter *)

(** What [_get] hands to its callback: the parsed content of a file, or the
    object it created. *)
Inductive Value :=
| Parsed (v : JSON)
| Object (r : nat).

Section FileStorageAdapter.

(** [utils.ripemd160(input, encoding)] and the StorageItem constructor are
    not among the sources: they are taken as given. *)
Variable utils_ripemd160 : string -> string -> string.
Variable StorageItem : Item -> Item.

(** file.js, lines 40-46. *)
Definition _validatePath (storageDirPath : string) : M unit :=
  exist <- utils_existsSync storageDirPath ;;
  (if negb exist then mkdirp_sync storageDirPath else ret tt) ;;;
  isDir <- utils_isDirectory storageDirPath ;;
  assert isDir "Invalid directory path supplied".

(** The constructor, run on the receiver (lines 19-32). *)
Definition FileStorageAdapter (storageDirPath : string) : M unit :=
  _validatePath storageDirPath ;;;
  modify (with_this {| _path := storageDirPath;
                       _isOpen := true;
                       _lastTimeSize := None;
                       _storageSize := 0 |}).

(** Lines 79-86.  Unlike the other methods, [_peek] does not start with
    [var self = this] and the module declares no [self]: the identifier is
    read with no binding, in strict mode. *)
Definition _peek {R} (key : string) (callback : Callback JSON R) : M (Outcome R) :=
  self <- unbound (A := Adapter) "self" ;;
  fs_readFile (path_join (_path self) key) (fun err value =>
    match err, value with
    | Some e, _ => callback (Some e) None
    | None, Some text =>
        match JSON_parse text with
        | inr v => callback None (Some v)
        | inl e => throw e
        end
    | None, None => throw (TypeError "undefined is not valid JSON")
    end).

(** Lines 95-108.  [item] is the caller's object: the two assignments are
    made on it. *)
Definition _put {R} (key : string) (item : nat) (callback : Callback unit R)
  : M (Outcome R) :=
  self <- gets this ;;
  assign item "shard" JNull ;;;
  assign item "fskey" (JStr (utils_ripemd160 key "hex")) ;;;
  text <- stringify_object item ;;
  fs_writeFile (path_join (_path self) key) text (fun err _ =>
    match err with
    | Some e => callback (Some e) None
    | None => callback None None
    end).

(** Lines 54-71. *)
Definition _get {R} (key : string) (callback : Callback Value R) : M (Outcome R) :=
  self <- gets this ;;
  exist <- utils_existsSync (path_join (_path self) key) ;;
  if (exist : bool) then
    _peek key (fun err value =>
      match err with
      | Some e => callback (Some e) None
      | None => callback None (Parsed <$> value)
      end)
  else
    newItem <- new_object (StorageItem []) ;;
    _put key newItem (fun err _ =>
      match err with
      | Some e => callback (Some e) None
      | None => callback None (Some (Object newItem))
      end).

(** Lines 116-126. *)
Definition _del {R} (key : string) (callback : Callback unit R) : M (Outcome R) :=
  self <- gets this ;;
  exist <- utils_existsSync (path_join (_path self) key) ;;
  if (exist : bool) then
    fs_unlink (path_join (_path self) key) (fun err _ =>
      match err with
      | Some e => callback (Some e) None
      | None => callback None None
      end)
  else callback None None.

(** Lines 133-136. *)
Definition _flush {R} (callback : Callback unit R) : M (Outcome R) :=
  callback None None.

(** Lines 147-157, local to [_size].  The initialiser of
    [let arrayOfFiles = arrayOfFiles || []] reads the binding it is
    initialising. *)
Definition getAllFiles (dirPath : string) : M (list string) :=
  files <- fs_readdirSync dirPath ;;
  arrayOfFiles <- unbound (A := list string) "arrayOfFiles" ;;
  forEach files (fun arrayOfFiles file =>
    stat <- fs_statSync (dirPath +:+ "/" +:+ file) ;;
    if negb (isDirectory stat)
    then ret (arrayOfFiles ++ [path_join dirPath file])%list
    else ret arrayOfFiles) arrayOfFiles.

(** The key as [if (key)] sees it: [None] when the call carries the
    callback only ([typeof key === 'function'], after which key is null) or
    when the key is the empty string. *)
Definition truthy (key : option string) : option string :=
  match key with
  | Some k => if String.eqb k "" then None else Some k
  | None => None
  end.

(** Lines 144-175. *)
Definition _size {R} (key : option string) (callback : Callback Z R) : M (Outcome R) :=
  self <- gets this ;;
  match truthy key with
  | Some key =>
      stat <- fs_statSync (path_join (_path self) key) ;;
      callback None (Some (size stat))
  | None =>
      arrayOfFiles <- getAllFiles (_path self) ;;
      totalSize <- forEach arrayOfFiles (fun totalSize filePath =>
                     stat <- fs_statSync filePath ;;
                     ret (totalSize + size stat)) 0 ;;
      callback None (Some totalSize)
  end.

(** Lines 182-200.  [dirPath] is a parameter of [getAllFiles] only: here
    it has no binding. *)
Definition _keys : M nat :=
  self <- gets this ;;
  readable <- new_Readable ;;
  pipe readable ProcessStdout ;;;
  files <- fs_readdirSync (_path self) ;;
  items <- forEach files (fun items file =>
             dirPath <- unbound (A := string) "dirPath" ;;
             stat <- fs_statSync (dirPath +:+ "/" +:+ file) ;;
             if negb (isDirectory stat)
             then dirPath <- unbound (A := string) "dirPath" ;;
                  ret (items ++ [path_join dirPath file])%list
             else ret items) [] ;;
  forEach items (fun _ item => push readable (Some item)) tt ;;;
  (* no more data *)
  push readable None ;;;
  ret readable.

(** Lines 207-209 and 216-218. *)
Definition _open {R} (callback : Callback unit R) : M (Outcome R) :=
  callback None None.

Definition _close {R} (callback : Callback unit R) : M (Outcome R) :=
  callback None None.

End FileStorageAdapter.

(** * Definitions used by the statements *)

Local Open Scope list_scope.

(** The path of a key's file. *)
Definition key_path (st : State) (key : string) : string :=
  path_join (_path (this st)) key.

(** The object [_put] serialises: shard set to null, fskey set. *)
Definition persisted (utils_ripemd160 : string -> string -> string)
    (key : string) (o : Item) : Item :=
  set_prop (set_prop o "shard" JNull) "fskey" (JStr (utils_ripemd160 key "hex")).

(** The store after [new Stream.Readable()] and the calls [ops] on it. *)
Definition with_new_stream (ops : Readable) (st : State) : State :=
  with_streams (streams st ++ [ops]) st.

(** The store with other values in the adapter's two cached size fields. *)
Definition with_cache (lastTimeSize : option Z) (storageSize : Z) (st : State) : State :=
  with_this {| _path := _path (this st);
               _isOpen := _isOpen (this st);
               _lastTimeSize := lastTimeSize;
               _storageSize := storageSize |} st.

(** An operation neither reads nor writes the cached size fields: with
    other values in them it has the same result and the same effect, and it
    leaves the adapter's fields as they were. *)
Definition ignores_cache {A} (op : M A) : Prop :=
  forall (l : option Z) (s : Z) (st : State),
    op (with_cache l s st) = (fst (op st), with_cache l s (snd (op st))) /\
    this (snd (op st)) = this st.

(** ** Sample stores *)

Definition adapter_at (root : string) : Adapter :=
  {| _path := root; _isOpen := true; _lastTimeSize := None; _storageSize := 0 |}.

(** An adapter on "/store", with [files] besides the directory itself. *)
Definition store (files : gmap Path Node) (objects : list Item) : State :=
  {| this := adapter_at "/store";
     fs := <[ ["store"] := Dir ]> files;
     heap := objects;
     streams := [];
     stdout := [] |}.

Definition empty_store : State := store ∅ [].

(** One file "a" of two bytes. *)
Definition store_a : State := store {[ ["store"; "a"] := File "{}" ]} [].

(** One subdirectory "sub". *)
Definition store_sub : State := store {[ ["store"; "sub"] := Dir ]} [].

(** No file, and the caller's object [{foo: 1, shard: "ZZZ"}]. *)
Definition store_x : State :=
  store ∅ [[("foo", JNum 1); ("shard", JStr "ZZZ")]].

(** [utils.ripemd160] and [StorageItem] are not among the sources, and the
    general lemmas hold for every choice of them.  Where a statement has to
    be closed, the digest is kept symbolic and the constructor returns the
    fields it is given. *)
Definition sample_ripemd160 (input encoding : string) : string :=
  "ripemd160(" +:+ input +:+ ")".

Definition sample_StorageItem (options : Item) : Item := options.

(** ** Key names *)

Fixpoint has_slash (s : string) : bool :=
  match s with
  | EmptyString => false
  | String c r => Ascii.eqb c slash || has_slash r
  end.

(** A name that is one path segment: no separator in it, and none of "",
    "." and "..". *)
Definition simple_name (s : string) : bool :=
  negb (has_slash s) && negb (String.eqb s "") && negb (String.eqb s ".")
  && negb (String.eqb s "..").

(** A segment the resolution keeps. *)
Definition kept (seg : string) : Prop := seg <> "" /\ seg <> "." /\ seg <> "..".

(** The file "a" and the caller's object [{foo: 1, shard: "ZZZ"}]. *)
Definition store_ax : State :=
  store {[ ["store"; "a"] := File "{}" ]} [[("foo", JNum 1); ("shard", JStr "ZZZ")]].

(** No file, and two objects of the caller. *)
Definition store_xy : State :=
  store ∅ [[("foo", JNum 1); ("shard", JStr "ZZZ")]; [("bar", JBool true)]].

(** A key that holds a NUL byte. *)
Definition nul_key : string := String "000"%char "x".

(** A path that Node and the system accept for a new file. *)
Definition accepted (p : string) : bool :=
  negb (has_nul p) && negb (too_long p) && negb (ends_with_slash p).

(** ** Stepping through an operation *)

Create HintDb js discriminated.
#[local] Hint Unfold bind ret throw gets modify unbound report handler lift : js.

Ltac js_unfold := autounfold with js; cbn beta iota.

Ltac frame_cases :=
  repeat match goal with
         | |- context [match ?x with _ => _ end] =>
             lazymatch x with
             | context [match _ with _ => _ end] => fail
             | _ => destruct x eqn:?; cbn
             end
         end.

Ltac frame_solve :=
  intros l s st; js_unfold;
  cbn [with_cache with_this with_fs with_heap with_streams with_stdout
       this fs heap streams stdout _path];
  frame_cases; split; reflexivity.

(** * Properties *)

(** ** Lists, objects and the file system *)

Lemma lookup_snoc {A} (l : list A) (x : A) : (l ++ [x]) !! length l = Some x.
Proof. induction l as [|y l IH]; [reflexivity | exact IH]. Qed.

Lemma insert_snoc {A} (l : list A) (x y : A) : <[length l := y]> (l ++ [x]) = l ++ [y].
Proof. induction l as [|z l IH]; [reflexivity | cbn; f_equal; exact IH]. Qed.

Lemma get_set_prop_eq (o : Item) (name : string) (v : JSON) :
  get_prop (set_prop o name v) name = Some v.
Proof.
  induction o as [|[k w] o IH]; cbn.
  - now rewrite String.eqb_refl.
  - destruct (String.eqb k name) eqn:E; cbn; rewrite E; [reflexivity | exact IH].
Qed.

Lemma get_set_prop_ne (o : Item) (name other : string) (v : JSON) :
  other <> name -> get_prop (set_prop o name v) other = get_prop o other.
Proof.
  intros Hne. induction o as [|[k w] o IH]; cbn.
  - destruct (String.eqb_spec name other); [congruence | reflexivity].
  - destruct (String.eqb_spec k name) as [->|Hk]; cbn.
    + destruct (String.eqb_spec name other); [congruence | reflexivity].
    + destruct (String.eqb k other); [reflexivity | exact IH].
Qed.

(** A resolved path that holds a file is not the root. *)
Lemma node_at_file_lookup (f : gmap Path Node) (at_ : Path) (data : string) :
  node_at f at_ = Some (File data) -> f !! at_ = Some (File data) /\ at_ <> [].
Proof.
  destruct at_ as [|seg rest]; cbn; [discriminate | intros H; split; [exact H | discriminate]].
Qed.

Lemma node_at_delete (f : gmap Path Node) (at_ : Path) :
  at_ <> [] -> node_at (delete at_ f) at_ = None.
Proof.
  destruct at_ as [|seg rest]; [congruence | intros _; cbn; apply lookup_delete_eq].
Qed.

Lemma node_at_insert (f : gmap Path Node) (at_ : Path) (n : Node) :
  at_ <> [] -> node_at (<[at_ := n]> f) at_ = Some n.
Proof.
  destruct at_ as [|seg rest]; [congruence | intros _; cbn; apply lookup_insert_eq].
Qed.

(** What is found at a path is found where the path resolves to, and the
    path holds no NUL byte. *)
Lemma lookup_path_Some (f : gmap Path Node) (p : string) (n : Node) :
  lookup_path f p = Some n ->
  has_nul p = false /\ exists at_, resolve p = Some at_ /\ node_at f at_ = Some n.
Proof.
  unfold lookup_path, locate. destruct (has_nul p); [discriminate |].
  destruct (resolve p) as [at_|]; [eauto | discriminate].
Qed.

Lemma lookup_path_resolve (f : gmap Path Node) (p : string) (at_ : Path) :
  has_nul p = false -> resolve p = Some at_ -> lookup_path f p = node_at f at_.
Proof. intros Hnul Hp. unfold lookup_path, locate. now rewrite Hnul, Hp. Qed.

Lemma locate_Some (p : string) (at_ : Path) :
  locate p = Some at_ -> has_nul p = false /\ resolve p = Some at_.
Proof. unfold locate. destruct (has_nul p); [discriminate | auto]. Qed.

(** A file reads back as written. *)
Lemma read_after_write (f f' : gmap Path Node) (p data : string) :
  write_file f p data = inr f' -> read_file f' p = inr data.
Proof.
  unfold write_file, read_file, lookup_path.
  destruct (locate p) as [at_|]; [| discriminate].
  intros H.
  assert (at_ <> [] /\ f' = <[at_ := File data]> f) as [Hne ->].
  { destruct at_ as [|seg rest]; [cbn in H; discriminate |].
    split; [discriminate |].
    destruct (node_at f (seg :: rest)) as [[?|]|];
      destruct (node_at f (removelast (seg :: rest))) as [[?|]|];
      destruct (too_long p); destruct (ends_with_slash p);
      congruence. }
  now rewrite node_at_insert.
Qed.

(** ** The runtime model on a few inputs *)

Example path_join_key : path_join "/store" "a" = "/store/a".
Proof. reflexivity. Qed.

Example path_join_normalizes : path_join "/store/" "../x/./y//z/" = "/x/y/z/".
Proof. vm_compute. reflexivity. Qed.

Example path_join_above_root :
  path_join "a" "../.." = ".." /\ path_join "/" ".." = "/" /\ path_join "" "" = ".".
Proof. repeat split; vm_compute; reflexivity. Qed.

Example resolve_key : resolve (path_join "/store" "a") = Some ["store"; "a"].
Proof. vm_compute. reflexivity. Qed.

Example resolve_concat : resolve ("/store/" +:+ "/" +:+ "a") = Some ["store"; "a"].
Proof. vm_compute. reflexivity. Qed.

Example stringify_item :
  JSON_stringify (JObj [("foo", JNum 1); ("shard", JNull); ("n", JArr [JNum (-120); JBool true])])
  = String "{" (String dquote ("foo" +:+ String dquote (":1," +:+ String dquote ("shard"
      +:+ String dquote (":null," +:+ String dquote ("n" +:+ String dquote ":[-120,true]}")))))).
Proof. vm_compute. reflexivity. Qed.

Example parse_stringify_nested :
  let v := JObj [("a b", JArr [JNum 0; JStr "x\y/z"; JObj []; JArr []]);
                 ("k", JObj [("deep", JArr [JNull; JBool false])])] in
  JSON_parse (JSON_stringify v) = inr v.
Proof. vm_compute. reflexivity. Qed.

Example parse_rejects :
  JSON_parse "[1,]" = inl (SyntaxError "Unexpected token in JSON") /\
  JSON_parse "{} x" = inl (SyntaxError "Unexpected non-whitespace character after JSON").
Proof. split; vm_compute; reflexivity. Qed.

Example entries_store_a : entries (fs store_a) ["store"] = ["a"].
Proof. vm_compute. reflexivity. Qed.

(** ** _peek *)

(** [_peek] raises before it touches the file system or its callback. *)
Lemma peek_unbound_self {R} (key : string) (callback : Callback JSON R) (st : State) :
  _peek key callback st = (Exn (ReferenceError "self"), st).
Proof. reflexivity. Qed.

(** C6: peek never reads the file: on every key and store, and whatever
    the callback, it raises a ReferenceError before any file-system call,
    so the callback receives neither the parsed content nor an error.  The
    store is left as it was.  On the sample store the file of "a" holds
    valid JSON and peek("a") raises. *)
Theorem peek_always_throws :
  (forall (R : Type) (key : string) (callback : Callback JSON R) (st : State),
     _peek key callback st = (Exn (ReferenceError "self"), st)) /\
  read_file (fs store_a) (key_path store_a "a") = inr "{}" /\
  JSON_parse "{}" = inr (JObj []) /\
  _peek "a" report store_a = (Exn (ReferenceError "self"), store_a).
Proof.
  split; [intros; apply peek_unbound_self |].
  split; [vm_compute; reflexivity |].
  split; [vm_compute; reflexivity | apply peek_unbound_self].
Qed.

(** ** _del *)

Section Del.
Variables (st : State) (key : string).

Lemma del_absent :
  lookup_path (fs st) (key_path st key) = None ->
  _del key report st = (Val (Called None None), st).
Proof.
  intros H. unfold key_path in H. unfold _del, utils_existsSync. js_unfold.
  now rewrite H.
Qed.

Lemma del_directory :
  lookup_path (fs st) (key_path st key) = Some Dir ->
  _del key report st = (Val (Called (Some (SystemError EISDIR "unlink")) None), st).
Proof.
  intros H. unfold key_path in H.
  unfold _del, utils_existsSync, fs_unlink, unlink_file. js_unfold.
  rewrite H. unfold lookup_path in H.
  destruct (locate _) as [at_|] eqn:Hloc; [| discriminate].
  apply locate_Some in Hloc as [-> _].
  now rewrite H.
Qed.

Lemma del_file (data : string) :
  lookup_path (fs st) (key_path st key) = Some (File data) ->
  exists at_,
    resolve (key_path st key) = Some at_ /\
    _del key report st = (Val (Called None None), with_fs (delete at_ (fs st)) st) /\
    lookup_path (delete at_ (fs st)) (key_path st key) = None.
Proof.
  intros H. unfold key_path in *.
  unfold _del, utils_existsSync, fs_unlink, unlink_file. js_unfold.
  rewrite H. unfold lookup_path in *.
  destruct (locate _) as [at_|] eqn:Hloc; [| discriminate].
  apply locate_Some in Hloc as [-> Hp].
  exists at_. rewrite H. split; [exact Hp | split; [reflexivity |]].
  apply node_at_delete. now apply node_at_file_lookup in H.
Qed.

End Del.

(** C7 (amended): for every key whose path does not name a directory,
    delete(k) called twice in a row signals success both times, nothing is
    left at k's path after the first call, the second call changes nothing,
    and delete on a key with nothing at its path changes nothing. *)
Theorem del_twice_succeeds (st : State) (key : string) :
  lookup_path (fs st) (key_path st key) <> Some Dir ->
  let first := _del key report st in
  let second := _del key report (snd first) in
  fst first = Val (Called None None) /\
  lookup_path (fs (snd first)) (key_path st key) = None /\
  second = (Val (Called None None), snd first) /\
  (lookup_path (fs st) (key_path st key) = None -> snd first = st).
Proof.
  intros Hdir. cbv zeta.
  destruct (lookup_path (fs st) (key_path st key)) as [[data|]|] eqn:H.
  - destruct (del_file st key data H) as (at_ & _ & Hrun & Hgone).
    rewrite Hrun. cbn [fst snd fs with_fs].
    repeat split; [exact Hgone | | discriminate].
    now apply del_absent.
  - congruence.
  - rewrite (del_absent st key H). cbn [fst snd].
    repeat split; [exact H | now apply del_absent].
Qed.

Lemma del_twice_succeeds_witness :
  read_file (fs store_a) (key_path store_a "a") = inr "{}" /\
  fst (_del "a" report store_a) = Val (Called None None) /\
  lookup_path (fs (snd (_del "a" report store_a))) (key_path store_a "a") = None /\
  _del "a" report (snd (_del "a" report store_a))
    = (Val (Called None None), snd (_del "a" report store_a)) /\
  (lookup_path (fs store_a) (key_path store_a "a") = None ->
   snd (_del "a" report store_a) = store_a).
Proof.
  split; [vm_compute; reflexivity |].
  apply (del_twice_succeeds store_a "a"). vm_compute. discriminate.
Defined.

(** C7, as stated, fails when the key names a subdirectory of the storage
    root: existsSync holds, unlink refuses a directory, and delete hands
    that error to its callback, both times, the directory staying. *)
Lemma del_subdirectory_key_reports_error :
  lookup_path (fs store_sub) (key_path store_sub "sub") = Some Dir /\
  _del "sub" report store_sub
    = (Val (Called (Some (SystemError EISDIR "unlink")) None), store_sub).
Proof.
  assert (lookup_path (fs store_sub) (key_path store_sub "sub") = Some Dir) as H
    by (vm_compute; reflexivity).
  split; [exact H | now apply del_directory].
Qed.

(** ** _size *)

Lemma size_key_spec {R} (key : string) (callback : Callback Z R) (st : State) :
  key <> "" ->
  _size (Some key) callback st =
    match stat_path (fs st) (key_path st key) with
    | inr stat => callback None (Some (size stat)) st
    | inl e => (Exn e, st)
    end.
Proof.
  intros Hkey. unfold _size, truthy, fs_statSync, key_path.
  destruct (String.eqb_spec key "") as [->|_]; [congruence |].
  js_unfold. destruct (stat_path _ _); reflexivity.
Qed.

Lemma getAllFiles_throws (dirPath : string) (st : State) :
  getAllFiles dirPath st =
    match read_dir (fs st) dirPath with
    | inr _ => (Exn (ReferenceError "arrayOfFiles"), st)
    | inl e => (Exn e, st)
    end.
Proof.
  unfold getAllFiles, fs_readdirSync. js_unfold.
  destruct (read_dir _ _); reflexivity.
Qed.

Lemma size_all_spec {R} (key : option string) (callback : Callback Z R) (st : State) :
  truthy key = None ->
  _size key callback st =
    match read_dir (fs st) (_path (this st)) with
    | inr _ => (Exn (ReferenceError "arrayOfFiles"), st)
    | inl e => (Exn e, st)
    end.
Proof.
  intros Hkey. unfold _size. rewrite Hkey. unfold bind at 1. unfold gets.
  unfold bind at 1. rewrite getAllFiles_throws.
  destruct (read_dir _ _); reflexivity.
Qed.

(** C4: the aggregate size() never reaches its callback: whatever the store
    holds and whatever the callback, it raises (a ReferenceError once the
    directory was listed).  On a store whose only file has 2 bytes,
    size("a") is 2 and size() raises. *)
Theorem size_all_always_throws :
  (forall (R : Type) (callback : Callback Z R) (st : State),
     exists e, _size None callback st = (Exn e, st)) /\
  _size (Some "a") report store_a = (Val (Called None (Some 2)), store_a) /\
  _size None report store_a = (Exn (ReferenceError "arrayOfFiles"), store_a).
Proof.
  split; [| split].
  - intros R callback st. rewrite size_all_spec by reflexivity.
    destruct (read_dir _ _); eauto.
  - rewrite size_key_spec by discriminate. vm_compute. reflexivity.
  - rewrite size_all_spec by reflexivity. vm_compute. reflexivity.
Qed.

(** C8: size(key) on a key with nothing at its path raises ENOENT
    synchronously: whatever the callback, it is not invoked. *)
Theorem size_missing_key_throws
    (R : Type) (callback : Callback Z R) (st : State) (key : string) :
  key <> "" ->
  lookup_path (fs st) (key_path st key) = None ->
  _size (Some key) callback st = (Exn (SystemError ENOENT "stat"), st).
Proof.
  intros Hkey Hnone. rewrite size_key_spec by assumption.
  unfold stat_path. now rewrite Hnone.
Qed.

Lemma size_missing_key_throws_witness :
  _size (Some "missing") report empty_store
    = (Exn (SystemError ENOENT "stat"), empty_store).
Proof.
  apply (size_missing_key_throws Z report empty_store "missing");
    [discriminate | vm_compute; reflexivity].
Defined.

(** ** _keys *)

(** All of what [_keys] does: it creates the readable and pipes it to
    process.stdout, lists the directory, and then either ends the empty
    sequence (no entry) or raises at the first entry, where it reads
    [dirPath]. *)
Lemma keys_spec (st : State) :
  _keys st =
    match read_dir (fs st) (_path (this st)) with
    | inl e => (Exn e, with_new_stream [OpPipe ProcessStdout] st)
    | inr [] =>
        (Val (length (streams st)),
         with_new_stream [OpPipe ProcessStdout; OpPush None] st)
    | inr (_ :: _) =>
        (Exn (ReferenceError "dirPath"), with_new_stream [OpPipe ProcessStdout] st)
    end.
Proof.
  unfold _keys, new_Readable, pipe, push, stream_call, fs_readdirSync, with_new_stream.
  js_unfold. cbn [streams with_streams fs this].
  rewrite lookup_snoc, insert_snoc. cbn [app].
  destruct (read_dir _ _) as [e|[|file files]]; cbn; try reflexivity.
  rewrite lookup_snoc, insert_snoc. reflexivity.
Qed.

(** On an empty root keys() returns the readable, ended, with nothing
    pushed: the one case in which it returns. *)
Lemma keys_empty_root (st : State) :
  read_dir (fs st) (_path (this st)) = inr [] ->
  exists ops,
    _keys st = (Val (length (streams st)), with_new_stream ops st) /\
    pushed ops = [] /\ ended ops = true.
Proof.
  intros Hdir. rewrite keys_spec, Hdir.
  exists [OpPipe ProcessStdout; OpPush None]. repeat split.
Qed.

(** C5: as soon as the storage root has one entry, keys() raises a
    ReferenceError: no key is yielded and no readable is returned; the
    readable it had created holds its pipe to stdout and nothing else. *)
Theorem keys_throws_on_nonempty_root (st : State) (names : list string) :
  read_dir (fs st) (_path (this st)) = inr names ->
  names <> [] ->
  _keys st = (Exn (ReferenceError "dirPath"), with_new_stream [OpPipe ProcessStdout] st).
Proof.
  intros Hdir Hne. rewrite keys_spec, Hdir.
  destruct names; [congruence | reflexivity].
Qed.

Lemma keys_throws_on_nonempty_root_witness :
  read_dir (fs store_a) (_path (this store_a)) = inr ["a"] /\
  _keys store_a
    = (Exn (ReferenceError "dirPath"), with_new_stream [OpPipe ProcessStdout] store_a).
Proof.
  assert (read_dir (fs store_a) (_path (this store_a)) = inr ["a"]) as H
    by (vm_compute; reflexivity).
  split; [exact H |].
  apply (keys_throws_on_nonempty_root store_a ["a"]); [exact H | discriminate].
Defined.



(** ** _put and _get *)

Section PutGet.
Variable utils_ripemd160 : string -> string -> string.
Variable StorageItem : Item -> Item.

Lemma put_spec {R} (key : string) (item : nat) (callback : Callback unit R)
      (st : State) (o : Item) :
  heap st !! item = Some o ->
  let o' := persisted utils_ripemd160 key o in
  let st1 := with_heap (<[item := o']> (heap st)) st in
  _put utils_ripemd160 key item callback st =
    if has_nul (key_path st key) then (Exn invalid_path_arg, st1)
    else
      match write_file (fs st) (key_path st key) (JSON_stringify (JObj o')) with
      | inr f' => handler (callback None None) (with_fs f' st1)
      | inl e => handler (callback (Some e) None) st1
      end.
Proof.
  intros Ho. cbv zeta.
  pose proof (lookup_lt_Some _ _ _ Ho) as Hlt.
  unfold _put, assign, stringify_object, fs_writeFile, key_path, persisted.
  js_unfold. rewrite Ho. cbn [heap with_heap this fs].
  rewrite list_lookup_insert_eq by exact Hlt.
  cbn [heap with_heap this fs].
  rewrite list_insert_insert_eq.
  rewrite list_lookup_insert_eq by exact Hlt.
  cbn [heap with_heap this fs].
  destruct (has_nul _); [reflexivity |].
  destruct (write_file _ _ _); reflexivity.
Qed.

Lemma put_dangling {R} (key : string) (item : nat) (callback : Callback unit R)
      (st : State) :
  heap st !! item = None ->
  _put utils_ripemd160 key item callback st
    = (Exn (TypeError "Cannot set properties of undefined"), st).
Proof.
  intros Ho. unfold _put, assign. js_unfold. now rewrite Ho.
Qed.

(** On a miss, get() creates the item, has [_put] persist it under the
    same key, and hands the created object to its callback. *)
Lemma get_miss_spec (key : string) (st : State) :
  lookup_path (fs st) (key_path st key) = None ->
  let item := length (heap st) in
  let o := persisted utils_ripemd160 key (StorageItem []) in
  let st1 := with_heap (heap st ++ [o]) st in
  _get utils_ripemd160 StorageItem key report st =
    if has_nul (key_path st key) then (Exn invalid_path_arg, st1)
    else
      match write_file (fs st) (key_path st key) (JSON_stringify (JObj o)) with
      | inr f' => (Val (Called None (Some (Object item))), with_fs f' st1)
      | inl e => (Val (Called (Some e) None), st1)
      end.
Proof.
  intros Hnone. cbv zeta. unfold key_path in Hnone.
  unfold _get, utils_existsSync, new_object. js_unfold. rewrite Hnone.
  erewrite put_spec by (cbn [heap with_heap]; apply lookup_snoc).
  unfold key_path. cbn [heap with_heap this fs].
  rewrite insert_snoc.
  destruct (has_nul _); [reflexivity |].
  destruct (write_file _ _ _); reflexivity.
Qed.

Lemma get_hit_throws {R} (key : string) (callback : Callback Value R) (st : State) :
  lookup_path (fs st) (key_path st key) <> None ->
  _get utils_ripemd160 StorageItem key callback st = (Exn (ReferenceError "self"), st).
Proof.
  intros Hsome. unfold key_path in Hsome.
  unfold _get, utils_existsSync. js_unfold.
  destruct (lookup_path _ _); [reflexivity | congruence].
Qed.

End PutGet.

(** On the empty store get("a") creates the object, writes its file and
    hands the object to the callback; the object carries the two fields
    [_put] sets. *)
Example get_miss_on_empty_store :
  let r := _get sample_ripemd160 sample_StorageItem "a" report empty_store in
  let created := [("shard", JNull); ("fskey", JStr (sample_ripemd160 "a" "hex"))] in
  fst r = Val (Called None (Some (Object 0))) /\
  heap (snd r) = [created] /\
  read_file (fs (snd r)) (key_path empty_store "a") = inr (JSON_stringify (JObj created)) /\
  entries (fs (snd r)) ["store"] = ["a"].
Proof. cbv zeta. repeat split; vm_compute; reflexivity. Qed.

(** C1: on every key with something at its path, get() raises the
    ReferenceError of peek: whatever the callback, it receives neither the
    parsed content nor an error, and the store is left as it was. *)
Theorem get_existing_key_throws
    (utils_ripemd160 : string -> string -> string) (StorageItem : Item -> Item)
    (R : Type) (callback : Callback Value R) (st : State) (key : string) :
  lookup_path (fs st) (key_path st key) <> None ->
  _get utils_ripemd160 StorageItem key callback st = (Exn (ReferenceError "self"), st).
Proof.
  intros Hsome. unfold key_path in Hsome.
  unfold _get, utils_existsSync. js_unfold.
  destruct (lookup_path (fs st) (path_join (_path (this st)) key)) as [n|];
    [| congruence].
  apply peek_unbound_self.
Qed.

Lemma get_existing_key_throws_witness :
  read_file (fs store_a) (key_path store_a "a") = inr "{}" /\
  JSON_parse "{}" = inr (JObj []) /\
  _get sample_ripemd160 sample_StorageItem "a" report store_a
    = (Exn (ReferenceError "self"), store_a).
Proof.
  split; [vm_compute; reflexivity |].
  split; [vm_compute; reflexivity |].
  apply (get_existing_key_throws sample_ripemd160 sample_StorageItem Value report
           store_a "a").
  vm_compute. discriminate.
Defined.

(** C2: whatever put(k, i) did, the peek(k) that follows raises a
    ReferenceError and returns no item.  On the sample store put("x", i)
    succeeds and leaves fskey set on the object, and peek("x") raises. *)
Theorem put_then_peek_throws :
  (forall (utils_ripemd160 : string -> string -> string)
          (key : string) (item : nat) (st : State),
     let st' := snd (_put utils_ripemd160 key item report st) in
     _peek key report st' = (Exn (ReferenceError "self"), st')) /\
  (let r := _put sample_ripemd160 "x" 0 report store_x in
   fst r = Val (Called None None) /\
   heap (snd r) !! 0%nat
     = Some [("foo", JNum 1); ("shard", JNull);
             ("fskey", JStr (sample_ripemd160 "x" "hex"))] /\
   _peek "x" report (snd r) = (Exn (ReferenceError "self"), snd r)).
Proof.
  split; [intros; apply peek_unbound_self |].
  cbv zeta. split; [vm_compute; reflexivity |].
  split; [vm_compute; reflexivity | apply peek_unbound_self].
Qed.

(** C3 (amended): for every key k and object i, when put(k, i) succeeds the
    text stored in k's file is the serialisation of i with its shard field
    present and set to null, whatever it held, fskey set to
    utils.ripemd160(k, 'hex'), and every other field as it was; the
    caller's object carries the same two changes. *)
Theorem put_persists_null_shard
    (utils_ripemd160 : string -> string -> string)
    (st : State) (key : string) (item : nat) (o : Item) :
  heap st !! item = Some o ->
  fst (_put utils_ripemd160 key item report st) = Val (Called None None) ->
  let st' := snd (_put utils_ripemd160 key item report st) in
  let o' := persisted utils_ripemd160 key o in
  read_file (fs st') (key_path st key) = inr (JSON_stringify (JObj o')) /\
  heap st' !! item = Some o' /\
  get_prop o' "shard" = Some JNull /\
  get_prop o' "fskey" = Some (JStr (utils_ripemd160 key "hex")) /\
  (forall name, name <> "shard" -> name <> "fskey" -> get_prop o' name = get_prop o name).
Proof.
  intros Ho. cbv zeta. rewrite (put_spec _ _ _ _ _ _ Ho). cbv zeta.
  destruct (has_nul _); [discriminate |].
  destruct (write_file _ _ _) as [e|f'] eqn:Hw; cbn; [discriminate |].
  intros _. unfold persisted.
  split; [eapply read_after_write; exact Hw |].
  split; [apply list_lookup_insert_eq; eapply lookup_lt_Some; exact Ho |].
  split; [rewrite get_set_prop_ne by discriminate; apply get_set_prop_eq |].
  split; [apply get_set_prop_eq |].
  intros name Hs Hf. now rewrite !get_set_prop_ne.
Qed.

Lemma put_persists_null_shard_witness :
  let st' := snd (_put sample_ripemd160 "x" 0 report store_x) in
  let o' := persisted sample_ripemd160 "x" [("foo", JNum 1); ("shard", JStr "ZZZ")] in
  read_file (fs st') (key_path store_x "x") = inr (JSON_stringify (JObj o')) /\
  heap st' !! 0%nat = Some o' /\
  get_prop o' "shard" = Some JNull /\
  get_prop o' "fskey" = Some (JStr (sample_ripemd160 "x" "hex")) /\
  (forall name, name <> "shard" -> name <> "fskey" ->
     get_prop o' name = get_prop [("foo", JNum 1); ("shard", JStr "ZZZ")] name).
Proof.
  apply (put_persists_null_shard sample_ripemd160 store_x "x" 0
           [("foo", JNum 1); ("shard", JStr "ZZZ")]);
    vm_compute; reflexivity.
Defined.

(** C3, as stated, fails on put("x", {foo: 1, shard: "ZZZ"}): the put
    succeeds, the text in the file of "x" parses to an object that has a
    shard field, holding null, and peek("x") returns no item at all. *)
Lemma put_keeps_shard_field :
  let r := _put sample_ripemd160 "x" 0 report store_x in
  let stored := [("foo", JNum 1); ("shard", JNull);
                 ("fskey", JStr (sample_ripemd160 "x" "hex"))] in
  fst r = Val (Called None None) /\
  read_file (fs (snd r)) (key_path store_x "x") = inr (JSON_stringify (JObj stored)) /\
  JSON_parse (JSON_stringify (JObj stored)) = inr (JObj stored) /\
  has_prop stored "shard" = true /\
  fst (_peek "x" report (snd r)) = Exn (ReferenceError "self").
Proof.
  cbv zeta. repeat split; vm_compute; reflexivity.
Qed.

(** ** The cached size fields *)

Section Frame.
Variable utils_ripemd160 : string -> string -> string.
Variable StorageItem : Item -> Item.

Lemma peek_ignores_cache key : ignores_cache (_peek key report).
Proof. intros l s st. rewrite !peek_unbound_self. split; reflexivity. Qed.

Lemma put_ignores_cache key item : ignores_cache (_put utils_ripemd160 key item report).
Proof.
  intros l s st. destruct (heap st !! item) as [o|] eqn:Ho.
  - rewrite !(put_spec utils_ripemd160 key item report _ o) by exact Ho.
    cbv zeta. unfold key_path. cbn [with_cache with_this this fs heap _path].
    destruct (has_nul _); [split; reflexivity |].
    destruct (write_file _ _ _); split; reflexivity.
  - rewrite !put_dangling by exact Ho. split; reflexivity.
Qed.

Lemma get_ignores_cache key :
  ignores_cache (_get utils_ripemd160 StorageItem key report).
Proof.
  intros l s st.
  destruct (lookup_path (fs st) (key_path st key)) as [n|] eqn:Hk.
  - rewrite !get_hit_throws by (unfold key_path in *; cbn; congruence).
    split; reflexivity.
  - rewrite !get_miss_spec by exact Hk.
    cbv zeta. unfold key_path. cbn [with_cache with_this this fs heap _path].
    destruct (has_nul _); [split; reflexivity |].
    destruct (write_file _ _ _); split; reflexivity.
Qed.

Lemma del_ignores_cache key : ignores_cache (_del key report).
Proof. unfold _del, utils_existsSync, fs_unlink. frame_solve. Qed.

Lemma size_ignores_cache key : ignores_cache (_size key report).
Proof.
  intros l s st. destruct (truthy key) as [k|] eqn:Hk.
  - unfold _size. rewrite Hk. unfold fs_statSync. revert l s st. frame_solve.
  - rewrite !size_all_spec by exact Hk.
    cbn [with_cache with_this this fs _path].
    destruct (read_dir _ _); split; reflexivity.
Qed.

Lemma keys_ignores_cache : ignores_cache _keys.
Proof.
  intros l s st. rewrite !keys_spec. unfold with_new_stream.
  cbn [with_cache with_this with_streams this fs streams _path].
  destruct (read_dir _ _) as [e|[|file files]]; split; reflexivity.
Qed.

Lemma noop_ignores_cache : ignores_cache (report (A := unit) None None).
Proof. intros l s st. split; reflexivity. Qed.

End Frame.

(** C9: the cached size fields are set by the constructor (null and 0) and
    by nothing else: every operation has the same outcome and effect
    whatever they hold, and leaves them as they were.  But the aggregate
    size() recomputes no total: whatever the fields hold and whatever the
    callback, it raises once the directory was listed (or with the error
    of the listing), before the size of any file is read, and the callback
    gets nothing.  With one file "a" of 2 bytes and other values in the
    fields, size("a") is 2 and size() raises. *)
Theorem cached_size_fields_unused
    (utils_ripemd160 : string -> string -> string) (StorageItem : Item -> Item) :
  (forall (storageDirPath : string) (st : State),
     match FileStorageAdapter storageDirPath st with
     | (Val _, st') =>
         _lastTimeSize (this st') = None /\ _storageSize (this st') = 0 /\
         _path (this st') = storageDirPath
     | (Exn _, st') => this st' = this st
     end) /\
  (forall key, ignores_cache (_get utils_ripemd160 StorageItem key report)) /\
  (forall key, ignores_cache (_peek key report)) /\
  (forall key item, ignores_cache (_put utils_ripemd160 key item report)) /\
  (forall key, ignores_cache (_del key report)) /\
  ignores_cache (_flush report) /\
  (forall key, ignores_cache (_size key report)) /\
  ignores_cache _keys /\
  ignores_cache (_open report) /\
  ignores_cache (_close report) /\
  (forall (l : option Z) (s : Z) (st : State) (R : Type) (callback : Callback Z R),
     _size None callback (with_cache l s st)
       = (match read_dir (fs st) (_path (this st)) with
          | inr _ => Exn (ReferenceError "arrayOfFiles")
          | inl e => Exn e
          end, with_cache l s st)) /\
  _size (Some "a") report (with_cache (Some 1) 100 store_a)
    = (Val (Called None (Some 2)), with_cache (Some 1) 100 store_a) /\
  _size None report (with_cache (Some 1) 100 store_a)
    = (Exn (ReferenceError "arrayOfFiles"), with_cache (Some 1) 100 store_a).
Proof.
  split.
  { intros p st.
    unfold FileStorageAdapter, _validatePath, utils_existsSync, utils_isDirectory,
      mkdirp_sync, assert.
    js_unfold. frame_cases; auto. }
  split; [intros; apply get_ignores_cache |].
  split; [intros; apply peek_ignores_cache |].
  split; [intros; apply put_ignores_cache |].
  split; [intros; apply del_ignores_cache |].
  split; [apply noop_ignores_cache |].
  split; [intros; apply size_ignores_cache |].
  split; [apply keys_ignores_cache |].
  split; [apply noop_ignores_cache |].
  split; [apply noop_ignores_cache |].
  split; [| split].
  - intros l s st R callback. rewrite size_all_spec by reflexivity.
    cbn [with_cache with_this fs this _path].
    destruct (read_dir _ _); reflexivity.
  - rewrite size_key_spec by discriminate. vm_compute. reflexivity.
  - rewrite size_all_spec by reflexivity. vm_compute. reflexivity.
Qed.

(** * Further properties *)

(** ** Where path.join puts the file of a key *)

Lemma split_slash_nonempty (s : string) : split_slash s <> [].
Proof.
  destruct s as [|c r]; cbn; [discriminate |].
  destruct (Ascii.eqb c slash); [discriminate |].
  destruct (split_slash r); discriminate.
Qed.

Lemma split_slash_no_slash (s : string) : has_slash s = false -> split_slash s = [s].
Proof.
  induction s as [|c r IH]; cbn; [reflexivity |].
  destruct (Ascii.eqb c slash); cbn; [discriminate |].
  intros H. now rewrite (IH H).
Qed.

Lemma split_slash_app (a b : string) :
  split_slash (a +:+ String slash b) = split_slash a ++ split_slash b.
Proof.
  induction a as [|c a IH]; [reflexivity |].
  change (String c a +:+ String slash b) with (String c (a +:+ String slash b)).
  cbn [split_slash]. rewrite IH.
  destruct (Ascii.eqb c slash); [reflexivity |].
  pose proof (split_slash_nonempty a) as Hne.
  destruct (split_slash a); [congruence | reflexivity].
Qed.

Lemma split_slash_segments (s : string) :
  Forall (fun seg => has_slash seg = false) (split_slash s).
Proof.
  induction s as [|c r IH]; cbn.
  - repeat constructor.
  - destruct (Ascii.eqb c slash) eqn:Hc.
    + constructor; [reflexivity | exact IH].
    + destruct (split_slash r) as [|seg rest].
      * repeat constructor. cbn. now rewrite Hc.
      * inversion IH; subst. constructor; [cbn; now rewrite Hc | assumption].
Qed.

Lemma simple_name_kept (s : string) :
  simple_name s = true -> has_slash s = false /\ kept s.
Proof.
  unfold simple_name, kept. intros H.
  repeat (apply andb_prop in H; destruct H as [H ?]).
  destruct (has_slash s); [discriminate |].
  destruct (String.eqb_spec s ""), (String.eqb_spec s "."), (String.eqb_spec s "..");
    try discriminate.
  auto.
Qed.

Lemma resolve_step_kept (at_ : Path) (seg : string) :
  kept seg -> resolve_step at_ seg = at_ ++ [seg].
Proof.
  intros (H1 & H2 & H3). unfold resolve_step.
  destruct (String.eqb_spec seg ""), (String.eqb_spec seg "."), (String.eqb_spec seg "..");
    cbn; congruence.
Qed.

Lemma resolve_kept_segments (segs : list string) (at_ : Path) :
  Forall kept segs -> fold_left resolve_step segs at_ = at_ ++ segs.
Proof.
  intros H. revert at_. induction H as [|seg segs Hseg _ IH]; intros at_; cbn.
  - now rewrite app_nil_r.
  - rewrite resolve_step_kept by exact Hseg. rewrite IH. now rewrite <- app_assoc.
Qed.

Lemma Forall_removelast {A} (P : A -> Prop) (l : list A) :
  Forall P l -> Forall P (removelast l).
Proof.
  induction 1 as [|x l Hx Hl IH]; cbn; [constructor |].
  destruct l; [constructor | constructor; assumption].
Qed.

Lemma last_Forall {A} (P : A -> Prop) (l : list A) (x : A) :
  Forall P l -> last l = Some x -> P x.
Proof.
  intros H Hlast. apply last_Some in Hlast as [l' ->].
  apply Forall_app in H as [_ H]. now inversion H.
Qed.

(** On an absolute path normalizeString and the system's resolution walk
    the segments alike, and what they keep are plain segments. *)
Lemma normalize_resolve_agree (segs : list string) (acc : list string) :
  Forall kept acc ->
  Forall (fun seg => has_slash seg = false) acc ->
  Forall (fun seg => has_slash seg = false) segs ->
  fold_left (normalize_step false) segs acc = fold_left resolve_step segs acc /\
  Forall kept (fold_left resolve_step segs acc) /\
  Forall (fun seg => has_slash seg = false) (fold_left resolve_step segs acc).
Proof.
  intros Hacc Hns Hsegs. revert acc Hacc Hns.
  induction Hsegs as [|seg segs Hseg _ IH]; intros acc Hacc Hns; cbn; [auto |].
  assert (normalize_step false acc seg = resolve_step acc seg) as ->.
  { unfold normalize_step, resolve_step.
    destruct (String.eqb seg "" || String.eqb seg "."); [reflexivity |].
    destruct (String.eqb seg ".."); [| reflexivity].
    destruct (last acc) as [l|] eqn:Hl.
    - pose proof (last_Forall _ _ _ Hacc Hl) as (_ & _ & Hdd).
      destruct (String.eqb_spec l ".."); [congruence | reflexivity].
    - apply last_None in Hl. now subst. }
  apply IH; unfold resolve_step;
    destruct (String.eqb_spec seg ""), (String.eqb_spec seg "."); cbn; try assumption;
    destruct (String.eqb_spec seg "..");
    try (apply Forall_removelast; assumption);
    apply Forall_app; (split; [assumption |]); repeat constructor; assumption.
Qed.

Lemma split_join_slash (x : string) (xs : list string) :
  Forall (fun seg => has_slash seg = false) xs ->
  split_slash (fold_left (fun acc y => acc +:+ "/" +:+ y) xs x) = split_slash x ++ xs.
Proof.
  intros H. revert x. induction H as [|y ys Hy _ IH]; intros x; cbn.
  - now rewrite app_nil_r.
  - rewrite IH. change ("/" +:+ y) with (String slash y).
    rewrite split_slash_app, (split_slash_no_slash y Hy). now rewrite <- app_assoc.
Qed.

(** On an absolute path, path.normalize changes nothing for the system. *)
Lemma resolve_path_normalize (p : string) :
  starts_with_slash p = true -> resolve (path_normalize p) = resolve p.
Proof.
  intros Habs. unfold path_normalize, resolve at 2.
  destruct (String.eqb_spec p "") as [->|_]; [discriminate |].
  rewrite Habs. cbn [negb].
  destruct (normalize_resolve_agree (split_slash p) [])
    as (-> & Hkept & Hns); [constructor | constructor | apply split_slash_segments |].
  set (N := fold_left resolve_step (split_slash p) []) in *.
  destruct N as [|x xs] eqn:HN.
  - cbn. reflexivity.
  - assert (split_slash (join_slash (x :: xs)) = x :: xs) as Hsplit.
    { cbn [join_slash]. rewrite split_join_slash by (now inversion Hns).
      rewrite split_slash_no_slash by (now inversion Hns). reflexivity. }
    destruct (String.eqb_spec (join_slash (x :: xs)) "") as [He|_].
    { rewrite He in Hsplit. cbn in Hsplit. injection Hsplit as Hx _.
      inversion Hkept as [|? ? (Hk & _) _]. congruence. }
    unfold resolve.
    destruct (ends_with_slash p).
    + change ("/" +:+ (join_slash (x :: xs) +:+ "/"))
        with (String slash (join_slash (x :: xs) +:+ String slash "")).
      cbn [String.eqb split_slash]. rewrite Ascii.eqb_refl.
      rewrite split_slash_app, Hsplit. cbn [fold_left split_slash].
      change (resolve_step [] "") with ([] : Path).
      rewrite fold_left_app, (resolve_kept_segments (x :: xs) []) by exact Hkept.
      reflexivity.
    + change ("/" +:+ join_slash (x :: xs)) with (String slash (join_slash (x :: xs))).
      cbn [String.eqb split_slash]. rewrite Ascii.eqb_refl.
      rewrite Hsplit.
      change (fold_left resolve_step ("" :: x :: xs) [])
        with (fold_left resolve_step (x :: xs) []).
      rewrite (resolve_kept_segments (x :: xs) []) by exact Hkept. reflexivity.
Qed.

(** With an absolute storage path, the file of a key is found by walking
    the key's segments from the storage directory. *)
Lemma resolve_path_join (root key : string) (at_ : Path) :
  starts_with_slash root = true ->
  resolve root = Some at_ ->
  resolve (path_join root key) =
    Some (if String.eqb key "" then at_ else fold_left resolve_step (split_slash key) at_).
Proof.
  intros Habs Hroot. unfold path_join.
  destruct (String.eqb_spec root "") as [->|_]; [discriminate |].
  destruct (String.eqb key "").
  - now rewrite resolve_path_normalize.
  - rewrite resolve_path_normalize
      by (destruct root; [discriminate | exact Habs]).
    unfold resolve in *.
    destruct (String.eqb_spec root "") as [->|_]; [discriminate |].
    destruct (String.eqb_spec (root +:+ "/" +:+ key) "") as [He|_].
    { destruct root; discriminate. }
    change ("/" +:+ key) with (String slash key).
    rewrite split_slash_app, fold_left_app. congruence.
Qed.

(** ** The file system: what a write or an unlink leaves alone *)

Lemma removelast_shorter {A} (l : list A) : l <> [] -> removelast l <> l.
Proof.
  intros Hne Heq. destruct (exists_last Hne) as (l' & x & ->).
  rewrite removelast_last in Heq.
  apply (f_equal (@length A)) in Heq. rewrite length_app in Heq. cbn in Heq. lia.
Qed.

Lemma node_at_insert_ne (f : gmap Path Node) (at_ other : Path) (n : Node) :
  other <> at_ -> node_at (<[at_ := n]> f) other = node_at f other.
Proof.
  intros Hne. destruct other as [|seg rest]; [reflexivity |].
  cbn. now apply lookup_insert_ne.
Qed.

Lemma node_at_delete_ne (f : gmap Path Node) (at_ other : Path) :
  other <> at_ -> node_at (delete at_ f) other = node_at f other.
Proof.
  intros Hne. destruct other as [|seg rest]; [reflexivity |].
  cbn. now apply lookup_delete_ne.
Qed.

Lemma write_file_inv (f f' : gmap Path Node) (p data : string) :
  write_file f p data = inr f' ->
  exists at_,
    resolve p = Some at_ /\ at_ <> [] /\
    node_at f at_ <> Some Dir /\ node_at f (removelast at_) = Some Dir /\
    f' = <[at_ := File data]> f.
Proof.
  unfold write_file. destruct (locate p) as [at_|] eqn:Hloc; [| discriminate].
  apply locate_Some in Hloc as [_ Hp].
  intros H. exists at_. split; [exact Hp |].
  destruct at_ as [|seg rest]; [cbn in H; discriminate |].
  split; [discriminate |].
  destruct (node_at f (seg :: rest)) as [[?|]|];
    destruct (node_at f (removelast (seg :: rest))) as [[?|]|];
    destruct (too_long p); destruct (ends_with_slash p);
    try discriminate; (split; [discriminate |]); split; congruence.
Qed.

(** Only a path that Node and the system accept is written. *)
Lemma write_file_accepted (f f' : gmap Path Node) (p data : string) :
  write_file f p data = inr f' ->
  has_nul p = false /\ too_long p = false /\ ends_with_slash p = false.
Proof.
  unfold write_file. destruct (locate p) as [at_|] eqn:Hloc; [| discriminate].
  apply locate_Some in Hloc as [Hnul _].
  destruct (node_at f at_) as [[?|]|];
    destruct (node_at f (removelast at_)) as [[?|]|];
    destruct (too_long p); destruct (ends_with_slash p);
    try discriminate; auto.
Qed.

Lemma write_file_ok (f : gmap Path Node) (p data : string) (at_ : Path) :
  has_nul p = false -> too_long p = false -> ends_with_slash p = false ->
  resolve p = Some at_ ->
  node_at f at_ <> Some Dir ->
  node_at f (removelast at_) = Some Dir ->
  write_file f p data = inr (<[at_ := File data]> f).
Proof.
  intros Hnul Hlong Hslash Hp Hnode Hparent.
  unfold write_file, locate. rewrite Hnul, Hp, Hparent, Hlong, Hslash.
  destruct (node_at f at_) as [[?|]|]; congruence.
Qed.

Lemma write_file_again (f f' : gmap Path Node) (p data data' : string) :
  write_file f p data = inr f' ->
  write_file f' p data' = inr (<[default [] (resolve p) := File data']> f).
Proof.
  intros H. pose proof (write_file_accepted _ _ _ _ H) as (Hnul & Hlong & Hslash).
  apply write_file_inv in H as (at_ & Hp & Hne & _ & Hparent & ->).
  rewrite Hp. cbn [default].
  rewrite (write_file_ok _ p data' at_ Hnul Hlong Hslash Hp).
  - now rewrite insert_insert_eq.
  - now rewrite node_at_insert.
  - rewrite node_at_insert_ne by (now apply removelast_shorter). exact Hparent.
Qed.

Lemma lookup_path_insert_ne (f : gmap Path Node) (at_ : Path) (n : Node) (q : string) :
  resolve q <> Some at_ ->
  lookup_path (<[at_ := n]> f) q = lookup_path f q.
Proof.
  intros Hq. unfold lookup_path, locate. destruct (has_nul q); [reflexivity |].
  destruct (resolve q) as [other|]; [| reflexivity].
  apply node_at_insert_ne. congruence.
Qed.

Lemma lookup_path_delete_ne (f : gmap Path Node) (at_ : Path) (q : string) :
  resolve q <> Some at_ ->
  lookup_path (delete at_ f) q = lookup_path f q.
Proof.
  intros Hq. unfold lookup_path, locate. destruct (has_nul q); [reflexivity |].
  destruct (resolve q) as [other|]; [| reflexivity].
  apply node_at_delete_ne. congruence.
Qed.

Lemma write_file_frame (f f' : gmap Path Node) (p data q : string) :
  write_file f p data = inr f' ->
  resolve q <> resolve p ->
  lookup_path f' q = lookup_path f q.
Proof.
  intros H Hq. apply write_file_inv in H as (at_ & Hp & _ & _ & _ & ->).
  apply lookup_path_insert_ne. congruence.
Qed.

Lemma unlink_file_inv (f f' : gmap Path Node) (p : string) :
  unlink_file f p = inr f' ->
  exists at_ data,
    resolve p = Some at_ /\ at_ <> [] /\ f !! at_ = Some (File data) /\
    f' = delete at_ f.
Proof.
  unfold unlink_file. destruct (locate p) as [at_|] eqn:Hloc; [| discriminate].
  apply locate_Some in Hloc as [_ Hp].
  destruct (node_at f at_) as [[data|]|] eqn:Hn; try discriminate.
  intros [= <-]. exists at_, data.
  apply node_at_file_lookup in Hn as [Hl Hne]. auto.
Qed.

Lemma unlink_file_frame (f f' : gmap Path Node) (p q : string) :
  unlink_file f p = inr f' ->
  resolve q <> resolve p ->
  lookup_path f' q = lookup_path f q.
Proof.
  intros H Hq. apply unlink_file_inv in H as (at_ & data & Hp & _ & _ & ->).
  apply lookup_path_delete_ne. congruence.
Qed.

(** ** Objects: assigning what is already there *)

Lemma set_prop_same (o : Item) (name : string) (v : JSON) :
  get_prop o name = Some v -> set_prop o name v = o.
Proof.
  induction o as [|[k w] o IH]; cbn; [discriminate |].
  destruct (String.eqb k name); [now intros [= ->] | intros H; now rewrite IH].
Qed.

Lemma persisted_idempotent (utils_ripemd160 : string -> string -> string)
      (key : string) (o : Item) :
  persisted utils_ripemd160 key (persisted utils_ripemd160 key o)
    = persisted utils_ripemd160 key o.
Proof.
  unfold persisted at 1.
  rewrite (set_prop_same (persisted utils_ripemd160 key o) "shard" JNull).
  - apply set_prop_same. unfold persisted. apply get_set_prop_eq.
  - unfold persisted. rewrite get_set_prop_ne by discriminate. apply get_set_prop_eq.
Qed.

Lemma handler_report {A} (err : option Error) (value : option A) (st : State) :
  handler (report err value) st = (Val (Called err value), st).
Proof. reflexivity. Qed.

(** ** _put, further *)

(** X1.  put on an object completes through its callback unless the key's
    path holds a NUL byte: then fs.writeFile refuses its argument, put
    raises that TypeError to its caller and the callback is not invoked.
    The caller's object has shard set to null and fskey set in every case,
    and when put did not succeed the files are as before. *)
Theorem put_reports_through_callback
    (utils_ripemd160 : string -> string -> string)
    (st : State) (key : string) (item : nat) (o : Item) :
  heap st !! item = Some o ->
  let r := _put utils_ripemd160 key item report st in
  heap (snd r) !! item = Some (persisted utils_ripemd160 key o) /\
  (has_nul (key_path st key) = true ->
   fst r = Exn invalid_path_arg /\ fs (snd r) = fs st) /\
  (has_nul (key_path st key) = false -> exists err, fst r = Val (Called err None)) /\
  (forall e, fst r = Val (Called (Some e) None) -> fs (snd r) = fs st).
Proof.
  intros Ho. cbv zeta. rewrite (put_spec _ _ _ _ _ _ Ho). cbv zeta.
  pose proof (lookup_lt_Some _ _ _ Ho) as Hlt.
  destruct (has_nul (key_path st key)).
  - cbn [fst snd heap fs with_heap].
    split; [now apply list_lookup_insert_eq |].
    split; [auto |]. split; [discriminate | discriminate].
  - destruct (write_file _ _ _) as [e|f']; rewrite handler_report;
      cbn [fst snd heap fs with_heap with_fs];
      (split; [now apply list_lookup_insert_eq |]);
      (split; [discriminate |]); (split; [eauto |]);
      [reflexivity | discriminate].
Qed.

Lemma put_reports_through_callback_witness :
  let r := _put sample_ripemd160 nul_key 0 report store_x in
  fst r = Exn invalid_path_arg /\
  heap (snd r) !! 0%nat
    = Some (persisted sample_ripemd160 nul_key [("foo", JNum 1); ("shard", JStr "ZZZ")]) /\
  (has_nul (key_path store_x nul_key) = true ->
   fst r = Exn invalid_path_arg /\ fs (snd r) = fs store_x) /\
  (has_nul (key_path store_x nul_key) = false -> exists err, fst r = Val (Called err None)) /\
  (forall e, fst r = Val (Called (Some e) None) -> fs (snd r) = fs store_x).
Proof.
  cbv zeta. split; [vm_compute; reflexivity |].
  apply (put_reports_through_callback sample_ripemd160 store_x nul_key 0
           [("foo", JNum 1); ("shard", JStr "ZZZ")]).
  reflexivity.
Defined.

Lemma put_leaves_other_paths
      (utils_ripemd160 : string -> string -> string)
      (st : State) (key : string) (item : nat) (q : string) :
  resolve q <> resolve (key_path st key) ->
  lookup_path (fs (snd (_put utils_ripemd160 key item report st))) q
    = lookup_path (fs st) q.
Proof.
  intros Hq. destruct (heap st !! item) as [o|] eqn:Ho.
  - rewrite (put_spec _ _ _ _ _ _ Ho). cbv zeta.
    destruct (has_nul _); [reflexivity |].
    destruct (write_file _ _ _) as [e|f'] eqn:Hw; cbn; [reflexivity |].
    eapply write_file_frame; eassumption.
  - rewrite put_dangling by exact Ho. reflexivity.
Qed.

(** X2.  put changes no file but the key's own, no object but the item,
    and neither the adapter, the readables nor stdout. *)
Theorem put_frame
    (utils_ripemd160 : string -> string -> string)
    (st : State) (key : string) (item : nat) (q : string) (other : nat) :
  resolve q <> resolve (key_path st key) ->
  other <> item ->
  let st' := snd (_put utils_ripemd160 key item report st) in
  lookup_path (fs st') q = lookup_path (fs st) q /\
  heap st' !! other = heap st !! other /\
  length (heap st') = length (heap st) /\
  this st' = this st /\ streams st' = streams st /\ stdout st' = stdout st.
Proof.
  intros Hq Hother. cbv zeta.
  split; [now apply put_leaves_other_paths |].
  destruct (heap st !! item) as [o|] eqn:Ho.
  - rewrite (put_spec _ _ _ _ _ _ Ho). cbv zeta.
    destruct (has_nul _);
      [| destruct (write_file _ _ _) as [e|f'] eqn:Hw]; cbn;
      rewrite list_lookup_insert_ne by congruence; rewrite length_insert;
      repeat split.
  - rewrite put_dangling by exact Ho. cbn. repeat split.
Qed.

Lemma put_frame_witness :
  let st' := snd (_put sample_ripemd160 "x" 1 report store_xy) in
  fst (_put sample_ripemd160 "x" 1 report store_xy) = Val (Called None None) /\
  lookup_path (fs st') "/store" = lookup_path (fs store_xy) "/store" /\
  heap st' !! 0%nat = heap store_xy !! 0%nat /\
  length (heap st') = length (heap store_xy) /\
  this st' = this store_xy /\ streams st' = streams store_xy /\
  stdout st' = stdout store_xy.
Proof.
  cbv zeta. split; [vm_compute; reflexivity |].
  apply (put_frame sample_ripemd160 store_xy "x" 1 "/store" 0);
    [vm_compute; discriminate | lia].
Defined.

(** X3.  Last writer wins: once a put under a key has succeeded, a later
    put of any object under the same key succeeds too, and the file then
    holds that object's serialisation and nothing of the earlier one. *)
Theorem put_overwrites
    (utils_ripemd160 : string -> string -> string)
    (st : State) (key : string) (first second : nat) (o2 : Item) :
  fst (_put utils_ripemd160 key first report st) = Val (Called None None) ->
  let st1 := snd (_put utils_ripemd160 key first report st) in
  heap st1 !! second = Some o2 ->
  let r2 := _put utils_ripemd160 key second report st1 in
  fst r2 = Val (Called None None) /\
  read_file (fs (snd r2)) (key_path st key)
    = inr (JSON_stringify (JObj (persisted utils_ripemd160 key o2))).
Proof.
  cbv zeta. intros Hfirst.
  destruct (heap st !! first) as [o1|] eqn:Ho1;
    [| rewrite put_dangling in Hfirst by exact Ho1; discriminate].
  revert Hfirst. rewrite (put_spec _ _ _ _ _ _ Ho1). cbv zeta.
  destruct (has_nul (key_path st key)) eqn:Hnul; [discriminate |].
  destruct (write_file _ _ _) as [e|f'] eqn:Hw;
    unfold handler, report, ret; cbn [fst snd]; [discriminate |].
  intros _ Ho2. rewrite (put_spec _ _ _ _ _ _ Ho2). cbv zeta.
  unfold key_path in *. unfold handler, report, ret. cbn [this fs with_fs with_heap].
  rewrite Hnul. erewrite write_file_again by exact Hw. cbn.
  split; [reflexivity |].
  apply write_file_inv in Hw as (at_ & Hp & Hne & _ & _ & _).
  unfold read_file. rewrite (lookup_path_resolve _ _ at_ Hnul Hp), Hp. cbn [default].
  now rewrite node_at_insert.
Qed.

Lemma put_overwrites_witness :
  let st1 := snd (_put sample_ripemd160 "x" 0 report store_xy) in
  let r2 := _put sample_ripemd160 "x" 1 report st1 in
  fst r2 = Val (Called None None) /\
  read_file (fs (snd r2)) (key_path store_xy "x")
    = inr (JSON_stringify (JObj (persisted sample_ripemd160 "x" [("bar", JBool true)]))).
Proof.
  apply (put_overwrites sample_ripemd160 store_xy "x" 0 1 [("bar", JBool true)]);
    vm_compute; reflexivity.
Defined.

(** X4.  put is idempotent: repeating a put that succeeded, with the same
    object under the same key, succeeds and changes nothing at all. *)
Theorem put_is_idempotent
    (utils_ripemd160 : string -> string -> string)
    (st : State) (key : string) (item : nat) :
  fst (_put utils_ripemd160 key item report st) = Val (Called None None) ->
  let st1 := snd (_put utils_ripemd160 key item report st) in
  _put utils_ripemd160 key item report st1 = (Val (Called None None), st1).
Proof.
  cbv zeta. intros Hfirst.
  destruct (heap st !! item) as [o|] eqn:Ho;
    [| rewrite put_dangling in Hfirst by exact Ho; discriminate].
  pose proof (lookup_lt_Some _ _ _ Ho) as Hlt.
  revert Hfirst. rewrite (put_spec _ _ _ _ _ _ Ho). cbv zeta.
  destruct (has_nul (key_path st key)) eqn:Hnul; [discriminate |].
  destruct (write_file _ _ _) as [e|f'] eqn:Hw;
    unfold handler, report, ret; cbn [fst snd]; [discriminate |].
  intros _.
  erewrite put_spec
    by (cbn [heap with_fs with_heap]; now apply list_lookup_insert_eq).
  cbv zeta. rewrite persisted_idempotent.
  unfold key_path in *. unfold handler, report, ret.
  cbn [this fs heap with_fs with_heap]. rewrite Hnul.
  erewrite write_file_again by exact Hw.
  apply write_file_inv in Hw as (at_ & Hp & _ & _ & _ & ->).
  unfold key_path in Hp. rewrite Hp. cbn [default].
  rewrite list_insert_insert_eq. reflexivity.
Qed.

Lemma put_is_idempotent_witness :
  let st1 := snd (_put sample_ripemd160 "x" 0 report store_x) in
  _put sample_ripemd160 "x" 0 report st1 = (Val (Called None None), st1).
Proof.
  apply (put_is_idempotent sample_ripemd160 store_x "x" 0). vm_compute. reflexivity.
Defined.

(** ** _get, further *)

(** X5.  get on a key with nothing at its path, in a directory that
    exists, and with a path that Node and the system accept (no NUL byte,
    not too long, no trailing separator): the callback receives the new
    object, which is the constructor's item with shard set to null and
    fskey set; the key's file is created and holds that object's
    serialisation. *)
Theorem get_miss_creates_item
    (utils_ripemd160 : string -> string -> string) (StorageItem : Item -> Item)
    (st : State) (key : string) (at_ : Path) :
  accepted (key_path st key) = true ->
  resolve (key_path st key) = Some at_ ->
  node_at (fs st) at_ = None ->
  node_at (fs st) (removelast at_) = Some Dir ->
  let r := _get utils_ripemd160 StorageItem key report st in
  let created := persisted utils_ripemd160 key (StorageItem []) in
  fst r = Val (Called None (Some (Object (length (heap st))))) /\
  heap (snd r) = heap st ++ [created] /\
  fs (snd r) = <[at_ := File (JSON_stringify (JObj created))]> (fs st) /\
  read_file (fs (snd r)) (key_path st key) = inr (JSON_stringify (JObj created)).
Proof.
  intros Hacc Hp Hnone Hparent. cbv zeta.
  unfold accepted in Hacc.
  apply andb_prop in Hacc as [Hacc Hslash]. apply andb_prop in Hacc as [Hnul Hlong].
  apply negb_true_iff in Hnul, Hlong, Hslash.
  rewrite get_miss_spec by (rewrite (lookup_path_resolve _ _ at_ Hnul Hp); exact Hnone).
  cbv zeta. rewrite Hnul.
  rewrite (write_file_ok _ _ _ at_ Hnul Hlong Hslash Hp) by (rewrite ?Hnone; congruence).
  cbn. repeat split.
  unfold read_file. rewrite (lookup_path_resolve _ _ at_ Hnul Hp), node_at_insert;
    [reflexivity |].
  intros ->. cbn in Hnone. discriminate.
Qed.

Lemma get_miss_creates_item_witness :
  let r := _get sample_ripemd160 sample_StorageItem "a" report empty_store in
  let created := persisted sample_ripemd160 "a" (sample_StorageItem []) in
  fst r = Val (Called None (Some (Object (length (heap empty_store))))) /\
  heap (snd r) = heap empty_store ++ [created] /\
  fs (snd r) = <[ ["store"; "a"] := File (JSON_stringify (JObj created))]> (fs empty_store) /\
  read_file (fs (snd r)) (key_path empty_store "a") = inr (JSON_stringify (JObj created)).
Proof.
  apply (get_miss_creates_item sample_ripemd160 sample_StorageItem empty_store "a"
           ["store"; "a"]); vm_compute; reflexivity.
Defined.

(** X6.  get on a key with nothing at its path and no NUL byte in it, when
    the file cannot be created (its directory is missing or is a file, or
    the path is too long or ends in a separator): the write fails, the
    callback receives that error, and no file is created; the object was
    created all the same. *)
Theorem get_miss_write_failure
    (utils_ripemd160 : string -> string -> string) (StorageItem : Item -> Item)
    (st : State) (key : string) (at_ : Path) :
  has_nul (key_path st key) = false ->
  resolve (key_path st key) = Some at_ ->
  node_at (fs st) at_ = None ->
  node_at (fs st) (removelast at_) <> Some Dir \/
    too_long (key_path st key) = true \/ ends_with_slash (key_path st key) = true ->
  let r := _get utils_ripemd160 StorageItem key report st in
  (exists code, fst r = Val (Called (Some (SystemError code "open")) None)) /\
  fs (snd r) = fs st /\
  heap (snd r) = heap st ++ [persisted utils_ripemd160 key (StorageItem [])].
Proof.
  intros Hnul Hp Hnone Hwhy. cbv zeta.
  rewrite get_miss_spec by (rewrite (lookup_path_resolve _ _ at_ Hnul Hp); exact Hnone).
  cbv zeta. rewrite Hnul.
  assert (exists code, forall data,
            write_file (fs st) (key_path st key) data = inl (SystemError code "open"))
    as [code Hw].
  { unfold write_file, locate. rewrite Hnul, Hp, Hnone.
    destruct (node_at (fs st) (removelast at_)) as [[?|]|]; [eauto | | eauto].
    destruct Hwhy as [Hparent | [-> | Hslash]]; [congruence | eauto |].
    rewrite Hslash. destruct (too_long _); eauto. }
  rewrite Hw. cbn. split; [eauto | split; reflexivity].
Qed.

Lemma get_miss_write_failure_witness :
  let r := _get sample_ripemd160 sample_StorageItem "nowhere/a" report empty_store in
  fst r = Val (Called (Some (SystemError ENOENT "open")) None) /\
  (exists code, fst r = Val (Called (Some (SystemError code "open")) None)) /\
  fs (snd r) = fs empty_store /\
  heap (snd r)
    = heap empty_store ++ [persisted sample_ripemd160 "nowhere/a" (sample_StorageItem [])].
Proof.
  cbv zeta. split; [vm_compute; reflexivity |].
  apply (get_miss_write_failure sample_ripemd160 sample_StorageItem empty_store
           "nowhere/a" ["store"; "nowhere"; "a"]);
    [vm_compute; reflexivity | vm_compute; reflexivity | vm_compute; reflexivity |].
  left. vm_compute. discriminate.
Defined.

(** X7.  get creates once: after a get that created the key's file, the
    next get of the same key finds the file, goes through peek and raises;
    its callback is not invoked. *)
Theorem get_after_create_throws
    (utils_ripemd160 : string -> string -> string) (StorageItem : Item -> Item)
    (R : Type) (callback : Callback Value R) (st : State) (key : string) (r : nat) :
  lookup_path (fs st) (key_path st key) = None ->
  fst (_get utils_ripemd160 StorageItem key report st)
    = Val (Called None (Some (Object r))) ->
  let st1 := snd (_get utils_ripemd160 StorageItem key report st) in
  _get utils_ripemd160 StorageItem key callback st1 = (Exn (ReferenceError "self"), st1).
Proof.
  intros Hnone. cbv zeta. rewrite get_miss_spec by exact Hnone. cbv zeta.
  destruct (has_nul _); [discriminate |].
  destruct (write_file _ _ _) as [e|f'] eqn:Hw; cbn [fst snd]; [discriminate |].
  intros _. apply get_hit_throws.
  apply read_after_write in Hw. unfold read_file in Hw.
  unfold key_path in *. cbn [this fs with_fs with_heap].
  destruct (lookup_path f' _); [discriminate | discriminate].
Qed.

Lemma get_after_create_throws_witness :
  let st1 := snd (_get sample_ripemd160 sample_StorageItem "a" report empty_store) in
  _get sample_ripemd160 sample_StorageItem "a" report st1
    = (Exn (ReferenceError "self"), st1).
Proof.
  apply (get_after_create_throws sample_ripemd160 sample_StorageItem Value report
           empty_store "a" 0); vm_compute; reflexivity.
Defined.

(** ** _del, further *)

(** X8.  delete always completes through its callback, never by an
    exception: with unlink's error when the key's path is a directory (the
    store is then as before), with success in every other case. *)
Theorem del_reports_through_callback (st : State) (key : string) :
  let r := _del key report st in
  fst r = Val (Called (match lookup_path (fs st) (key_path st key) with
                       | Some Dir => Some (SystemError EISDIR "unlink")
                       | _ => None
                       end) None) /\
  (lookup_path (fs st) (key_path st key) = Some Dir -> snd r = st).
Proof.
  cbv zeta.
  destruct (lookup_path (fs st) (key_path st key)) as [[data|]|] eqn:H.
  - destruct (del_file st key data H) as (at_ & _ & -> & _).
    split; [reflexivity | discriminate].
  - rewrite (del_directory st key H). split; reflexivity.
  - rewrite (del_absent st key H). split; [reflexivity | discriminate].
Qed.

Lemma del_leaves_other_paths (st : State) (key : string) (q : string) :
  resolve q <> resolve (key_path st key) ->
  lookup_path (fs (snd (_del key report st))) q = lookup_path (fs st) q.
Proof.
  intros Hq.
  destruct (lookup_path (fs st) (key_path st key)) as [[data|]|] eqn:H.
  - destruct (del_file st key data H) as (at_ & Hp & -> & _). cbn.
    apply lookup_path_delete_ne. congruence.
  - now rewrite (del_directory st key H).
  - now rewrite (del_absent st key H).
Qed.

(** X9.  delete removes nothing but the key's own file: every other path
    holds what it held, and the objects, the adapter, the readables and
    stdout are untouched. *)
Theorem del_frame (st : State) (key : string) (q : string) :
  resolve q <> resolve (key_path st key) ->
  let st' := snd (_del key report st) in
  lookup_path (fs st') q = lookup_path (fs st) q /\
  heap st' = heap st /\ this st' = this st /\
  streams st' = streams st /\ stdout st' = stdout st.
Proof.
  intros Hq. cbv zeta.
  split; [now apply del_leaves_other_paths |].
  destruct (lookup_path (fs st) (key_path st key)) as [[data|]|] eqn:H.
  - destruct (del_file st key data H) as (at_ & Hp & -> & _).
    cbn. repeat split.
  - rewrite (del_directory st key H). cbn. repeat split.
  - rewrite (del_absent st key H). cbn. repeat split.
Qed.

Lemma del_frame_witness :
  let st' := snd (_del "a" report store_a) in
  lookup_path (fs st') "/store" = lookup_path (fs store_a) "/store" /\
  heap st' = heap store_a /\ this st' = this store_a /\
  streams st' = streams store_a /\ stdout st' = stdout store_a.
Proof.
  apply (del_frame store_a "a" "/store"). vm_compute. discriminate.
Defined.

(** X10.  put then delete is a round trip on the files: when nothing was
    at the key's path and the put succeeded, the delete that follows
    succeeds and the file system is again what it was before the put. *)
Theorem put_then_del_restores
    (utils_ripemd160 : string -> string -> string)
    (st : State) (key : string) (item : nat) :
  lookup_path (fs st) (key_path st key) = None ->
  fst (_put utils_ripemd160 key item report st) = Val (Called None None) ->
  let st1 := snd (_put utils_ripemd160 key item report st) in
  fst (_del key report st1) = Val (Called None None) /\
  fs (snd (_del key report st1)) = fs st.
Proof.
  intros Hnone Hput. cbv zeta.
  destruct (heap st !! item) as [o|] eqn:Ho;
    [| rewrite put_dangling in Hput by exact Ho; discriminate].
  revert Hput. rewrite (put_spec _ _ _ _ _ _ Ho). cbv zeta.
  destruct (has_nul (key_path st key)) eqn:Hnul; [discriminate |].
  destruct (write_file _ _ _) as [e|f'] eqn:Hw;
    rewrite handler_report; cbn [fst snd]; [discriminate |].
  intros _.
  apply write_file_inv in Hw as (at_ & Hp & Hne & _ & _ & ->).
  set (st1 := with_fs _ _).
  assert (lookup_path (fs st1) (key_path st1 key)
          = Some (File (JSON_stringify (JObj (persisted utils_ripemd160 key o))))) as Hfile.
  { subst st1. unfold key_path in *. cbn [this fs with_fs with_heap].
    rewrite (lookup_path_resolve _ _ at_ Hnul Hp). now apply node_at_insert. }
  destruct (del_file st1 key _ Hfile) as (at' & Hp' & -> & _).
  split; [reflexivity |].
  assert (at' = at_) as -> by (subst st1; unfold key_path in *; cbn in Hp'; congruence).
  subst st1. cbn. apply delete_insert_id.
  rewrite (lookup_path_resolve _ _ at_ Hnul Hp) in Hnone.
  destruct at_; [congruence | exact Hnone].
Qed.

Lemma put_then_del_restores_witness :
  let st1 := snd (_put sample_ripemd160 "x" 0 report store_x) in
  fst (_del "x" report st1) = Val (Called None None) /\
  fs (snd (_del "x" report st1)) = fs store_x.
Proof.
  apply (put_then_del_restores sample_ripemd160 store_x "x" 0); vm_compute; reflexivity.
Defined.

(** ** _size, further *)

Lemma size_file_spec {R} (callback : Callback Z R) (st : State) (key data : string) :
  key <> "" ->
  lookup_path (fs st) (key_path st key) = Some (File data) ->
  _size (Some key) callback st
    = callback None (Some (Z.of_nat (String.length data))) st.
Proof.
  intros Hkey Hfile. rewrite size_key_spec by exact Hkey.
  unfold stat_path. now rewrite Hfile.
Qed.

(** X11.  size(key) on a key whose path holds a regular file hands the
    byte length of its content to the callback and changes nothing. *)
Theorem size_reports_file_length (st : State) (key data : string) :
  key <> "" ->
  lookup_path (fs st) (key_path st key) = Some (File data) ->
  _size (Some key) report st
    = (Val (Called None (Some (Z.of_nat (String.length data)))), st).
Proof.
  intros Hkey Hfile. now rewrite (size_file_spec report st key data).
Qed.

Lemma size_reports_file_length_witness :
  _size (Some "a") report store_a = (Val (Called None (Some 2)), store_a).
Proof.
  apply (size_reports_file_length store_a "a" "{}");
    [discriminate | vm_compute; reflexivity].
Defined.

(** X12.  After a put that succeeded, size(key) is the length of the
    serialisation of the object as put left it. *)
Theorem put_then_size
    (utils_ripemd160 : string -> string -> string)
    (st : State) (key : string) (item : nat) (o : Item) :
  key <> "" ->
  heap st !! item = Some o ->
  fst (_put utils_ripemd160 key item report st) = Val (Called None None) ->
  let st1 := snd (_put utils_ripemd160 key item report st) in
  _size (Some key) report st1
    = (Val (Called None
              (Some (Z.of_nat (String.length
                                 (JSON_stringify (JObj (persisted utils_ripemd160 key o))))))),
       st1).
Proof.
  intros Hkey Ho. cbv zeta. rewrite (put_spec _ _ _ _ _ _ Ho). cbv zeta.
  destruct (has_nul _); [discriminate |].
  destruct (write_file _ _ _) as [e|f'] eqn:Hw;
    unfold handler, report, ret; cbn [fst snd]; [discriminate |].
  intros _.
  rewrite (size_file_spec report _ key
             (JSON_stringify (JObj (persisted utils_ripemd160 key o))));
    [reflexivity | exact Hkey |].
  apply read_after_write in Hw. unfold read_file in Hw.
  unfold key_path in *. cbn [this fs with_fs with_heap].
  destruct (lookup_path f' _) as [[?|]|]; congruence.
Qed.

Lemma put_then_size_witness :
  let st1 := snd (_put sample_ripemd160 "x" 0 report store_x) in
  _size (Some "x") report st1
    = (Val (Called None
              (Some (Z.of_nat (String.length
                                 (JSON_stringify
                                    (JObj (persisted sample_ripemd160 "x"
                                             [("foo", JNum 1); ("shard", JStr "ZZZ")]))))))),
       st1).
Proof.
  apply (put_then_size sample_ripemd160 store_x "x" 0
           [("foo", JNum 1); ("shard", JStr "ZZZ")]);
    [discriminate | reflexivity | vm_compute; reflexivity].
Defined.

(** X13.  The empty string is no key for size: size("") takes the branch of
    size() with no key, does not stat the storage directory, and raises as
    that branch does. *)
Theorem size_empty_key_is_aggregate (R : Type) (callback : Callback Z R) (st : State) :
  _size (Some "") callback st = _size None callback st /\
  exists e, _size (Some "") callback st = (Exn e, st).
Proof.
  rewrite !size_all_spec by reflexivity. split; [reflexivity |].
  destruct (read_dir _ _); eauto.
Qed.

(** X14.  After delete(k) on a key whose path is not a directory, size(k)
    raises ENOENT, whatever was there before. *)
Theorem size_after_del_throws
    (R : Type) (callback : Callback Z R) (st : State) (key : string) :
  key <> "" ->
  lookup_path (fs st) (key_path st key) <> Some Dir ->
  let st1 := snd (_del key report st) in
  _size (Some key) callback st1 = (Exn (SystemError ENOENT "stat"), st1).
Proof.
  intros Hkey Hdir. cbv zeta. rewrite size_key_spec by exact Hkey.
  assert (lookup_path (fs (snd (_del key report st)))
            (key_path (snd (_del key report st)) key) = None) as Hgone.
  { destruct (lookup_path (fs st) (key_path st key)) as [[data|]|] eqn:H.
    - destruct (del_file st key data H) as (at_ & _ & -> & Hgone). exact Hgone.
    - congruence.
    - rewrite (del_absent st key H). exact H. }
  unfold stat_path. now rewrite Hgone.
Qed.

Lemma size_after_del_throws_witness :
  let st1 := snd (_del "a" report store_a) in
  _size (Some "a") report store_a = (Val (Called None (Some 2)), store_a) /\
  _size (Some "a") report st1 = (Exn (SystemError ENOENT "stat"), st1).
Proof.
  cbv zeta. split; [vm_compute; reflexivity |].
  apply (size_after_del_throws Z report store_a "a");
    [discriminate | vm_compute; discriminate].
Defined.

(** ** _keys, further *)

(** X15.  keys() on an empty storage root returns a new readable on which
    nothing was pushed but the end of data; when it flows, nothing is
    written to stdout. *)
Theorem keys_on_empty_root (st : State) :
  read_dir (fs st) (_path (this st)) = inr [] ->
  let r := length (streams st) in
  let st1 := snd (_keys st) in
  fst (_keys st) = Val r /\
  exists ops,
    streams st1 !! r = Some ops /\ pushed ops = [] /\ ended ops = true /\
    stdout (flow r st1) = stdout st.
Proof.
  intros Hdir. cbv zeta. rewrite keys_spec, Hdir. cbn [fst snd].
  split; [reflexivity |].
  exists [OpPipe ProcessStdout; OpPush None].
  unfold flow, with_new_stream. cbn [streams with_streams].
  rewrite lookup_snoc. cbn. rewrite app_nil_r. repeat split.
Qed.

Lemma keys_on_empty_root_witness :
  let r := length (streams empty_store) in
  let st1 := snd (_keys empty_store) in
  fst (_keys empty_store) = Val r /\
  exists ops,
    streams st1 !! r = Some ops /\ pushed ops = [] /\ ended ops = true /\
    stdout (flow r st1) = stdout empty_store.
Proof.
  apply (keys_on_empty_root empty_store). vm_compute. reflexivity.
Defined.

(** X16.  Every call to keys() creates one new readable and touches
    nothing else: the readables of earlier calls, the files, the objects,
    the adapter and stdout are as before, whether the call returns or
    raises.  Two calls that return give two different readables. *)
Theorem keys_creates_one_readable (st : State) :
  let st1 := snd (_keys st) in
  (exists ops, streams st1 = streams st ++ [ops]) /\
  fs st1 = fs st /\ heap st1 = heap st /\ this st1 = this st /\ stdout st1 = stdout st /\
  (forall r1 r2, fst (_keys st) = Val r1 -> fst (_keys st1) = Val r2 ->
                 r1 = length (streams st) /\ r2 = S r1).
Proof.
  cbv zeta. rewrite !keys_spec. unfold with_new_stream.
  destruct (read_dir (fs st) (_path (this st))) as [e|[|file files]] eqn:Hdir;
    cbn [fst snd fs heap this stdout streams with_streams];
    try rewrite Hdir; cbn [fst];
    (split; [eexists; reflexivity |]); repeat (split; [reflexivity |]);
    intros r1 r2 H1 H2; try discriminate.
  injection H1 as <-. injection H2 as <-.
  rewrite length_app. cbn. split; [reflexivity | lia].
Qed.

(** X17.  keys() on a storage path that is not a directory (removed, or a
    regular file) raises the error of the directory listing. *)
Theorem keys_without_directory_throws (st : State) :
  lookup_path (fs st) (_path (this st)) <> Some Dir ->
  exists code, (code = ENOENT \/ code = ENOTDIR) /\
               fst (_keys st) = Exn (SystemError code "scandir").
Proof.
  intros Hdir. rewrite keys_spec. unfold read_dir, lookup_path in *.
  destruct (locate _) as [d|]; [| eauto].
  destruct (node_at (fs st) d) as [[data|]|]; [eauto | congruence | eauto].
Qed.

Lemma keys_without_directory_throws_witness :
  fst (_keys (with_this (adapter_at "/store/a") store_a))
    = Exn (SystemError ENOTDIR "scandir") /\
  exists code, (code = ENOENT \/ code = ENOTDIR) /\
               fst (_keys (with_this (adapter_at "/store/a") store_a))
                 = Exn (SystemError code "scandir").
Proof.
  split; [vm_compute; reflexivity |].
  apply (keys_without_directory_throws (with_this (adapter_at "/store/a") store_a)).
  vm_compute. discriminate.
Defined.

(** ** The constructor *)

Lemma node_at_weaken (f f' : gmap Path Node) (at_ : Path) (n : Node) :
  f ⊆ f' -> node_at f at_ = Some n -> node_at f' at_ = Some n.
Proof.
  intros Hsub. destruct at_ as [|seg rest]; [auto |].
  cbn. intros H. exact (lookup_weaken _ _ _ _ H Hsub).
Qed.

(** What a walk of [mkdirs] that ends well has done: every directory on
    the way is there, what was there is kept, and nothing but directories
    on the way was added. *)
Lemma mkdirs_spec (todo : list string) :
  forall (f f' : gmap Path Node) (at_ : Path),
    node_at f at_ = Some Dir ->
    mkdirs f at_ todo = inr f' ->
    (forall k1 k2, todo = k1 ++ k2 -> node_at f' (at_ ++ k1) = Some Dir) /\
    f ⊆ f' /\
    (forall q n, f' !! q = Some n ->
                 f !! q = Some n \/
                 (n = Dir /\ exists k1 k2, todo = k1 ++ k2 /\ q = at_ ++ k1)).
Proof.
  induction todo as [|seg rest IH]; intros f f' at_ Hat; cbn.
  - intros [= <-]. split; [| split; [reflexivity | auto]].
    intros k1 k2 Hk. symmetry in Hk. apply app_eq_nil in Hk as [-> _].
    now rewrite app_nil_r.
  - assert (at_ ++ [seg] <> []) as Hne by (destruct at_; discriminate).
    assert (forall g,
              f ⊆ g -> node_at g (at_ ++ [seg]) = Some Dir ->
              (forall q n, g !! q = Some n ->
                           f !! q = Some n \/ (n = Dir /\ q = at_ ++ [seg])) ->
              mkdirs g (at_ ++ [seg]) rest = inr f' ->
              (forall k1 k2, seg :: rest = k1 ++ k2 -> node_at f' (at_ ++ k1) = Some Dir) /\
              f ⊆ f' /\
              (forall q n, f' !! q = Some n ->
                           f !! q = Some n \/
                           (n = Dir /\ exists k1 k2, seg :: rest = k1 ++ k2 /\ q = at_ ++ k1)))
      as Hnext.
    { intros g Hfg Hg Hnew Hmk.
      destruct (IH g f' (at_ ++ [seg]) Hg Hmk) as (Hdirs & Hsub & Honly).
      split; [| split].
      - intros [|s k1] k2 Hk.
        + rewrite app_nil_r.
          apply (node_at_weaken f); [etrans; [exact Hfg | exact Hsub] | exact Hat].
        + injection Hk as <- ->.
          replace (at_ ++ seg :: k1) with ((at_ ++ [seg]) ++ k1)
            by now rewrite <- app_assoc.
          now apply (Hdirs k1 k2).
      - etrans; [exact Hfg | exact Hsub].
      - intros q n Hq. destruct (Honly q n Hq) as [Hold | (-> & k1 & k2 & -> & ->)].
        + destruct (Hnew q n Hold) as [? | (-> & ->)]; [now left |].
          right. split; [reflexivity |]. now exists [seg], rest.
        + right. split; [reflexivity |]. exists (seg :: k1), k2.
          split; [reflexivity | now rewrite <- app_assoc]. }
    destruct (node_at f (at_ ++ [seg])) as [[data|]|] eqn:Hn; [discriminate | |].
    + apply Hnext; [reflexivity | exact Hn | auto].
    + destruct (name_too_long seg); [discriminate |].
      assert (f !! (at_ ++ [seg]) = None) as Hfree
        by (destruct (at_ ++ [seg]); [congruence | exact Hn]).
      apply Hnext.
      * now apply insert_subseteq.
      * now apply node_at_insert.
      * intros q n Hq. destruct (decide (q = at_ ++ [seg])) as [-> | Hd].
        -- rewrite lookup_insert_eq in Hq. injection Hq as <-. now right.
        -- rewrite lookup_insert_ne in Hq by congruence. now left.
Qed.

Lemma mkdirs_succeeds (todo : list string) :
  forall (f : gmap Path Node) (at_ : Path),
    Forall (fun seg => name_too_long seg = false) todo ->
    (forall k1 k2 data, todo = k1 ++ k2 -> node_at f (at_ ++ k1) <> Some (File data)) ->
    exists f', mkdirs f at_ todo = inr f'.
Proof.
  induction todo as [|seg rest IH]; intros f at_ Hshort Hfree; cbn; [eauto |].
  apply Forall_cons in Hshort as [Hseg Hrest].
  assert (forall g, (forall k1 k2 data, rest = k1 ++ k2 ->
                       node_at g ((at_ ++ [seg]) ++ k1) <> Some (File data)) ->
                    exists f', mkdirs g (at_ ++ [seg]) rest = inr f') as Hnext
    by (intros g Hg; now apply IH).
  destruct (node_at f (at_ ++ [seg])) as [[data|]|] eqn:Hn.
  - exfalso. eapply (Hfree [seg] rest); [reflexivity | exact Hn].
  - apply Hnext. intros k1 k2 data ->. rewrite <- app_assoc.
    now apply (Hfree (seg :: k1) k2).
  - rewrite Hseg. apply Hnext. intros k1 k2 data ->.
    destruct k1 as [|s k1].
    + rewrite app_nil_r, node_at_insert; [discriminate | destruct at_; discriminate].
    + rewrite node_at_insert_ne.
      * rewrite <- app_assoc. now apply (Hfree (seg :: s :: k1) k2).
      * intros Heq. apply (f_equal (@length string)) in Heq.
        rewrite !length_app in Heq. cbn in Heq. lia.
Qed.

Lemma resolve_step_short (at_ : Path) (seg : string) :
  Forall (fun seg => name_too_long seg = false) at_ ->
  name_too_long seg = false ->
  Forall (fun seg => name_too_long seg = false) (resolve_step at_ seg).
Proof.
  intros Hat Hseg. unfold resolve_step.
  destruct (_ || _); [exact Hat |].
  destruct (String.eqb seg "..").
  - induction Hat as [|x [|y l] Hx Hl IHl]; cbn; auto.
  - apply Forall_app. auto.
Qed.

(** The components of a path that is not too long are not. *)
Lemma resolve_short (p : string) (at_ : Path) :
  too_long p = false ->
  resolve p = Some at_ ->
  path_too_long p = false /\
  Forall (fun seg => name_too_long seg = false) at_.
Proof.
  unfold too_long, resolve. intros Hlong Hp.
  apply orb_false_iff in Hlong as [Hpath Hsegs]. split; [exact Hpath |].
  destruct (String.eqb p ""); [discriminate |]. injection Hp as <-.
  assert (Forall (fun seg => name_too_long seg = false) (split_slash p))
    as Hall.
  { induction (split_slash p) as [|x l IHl]; [constructor |].
    cbn in Hsegs. apply orb_false_iff in Hsegs as [Hx Hl]. constructor; auto. }
  clear Hsegs. revert Hall.
  assert (Forall (fun seg => name_too_long seg = false) (@nil string))
    as Hnil by constructor.
  revert Hnil. generalize (@nil string) as acc.
  induction (split_slash p) as [|x l IHl]; intros acc Hacc Hall; cbn; [exact Hacc |].
  apply Forall_cons in Hall as [Hx Hl].
  apply IHl; [now apply resolve_step_short | exact Hl].
Qed.

(** X18.  When the constructor returns, the storage path names a
    directory, the adapter holds that path and is open, and every file and
    directory that existed is still there unchanged; when something was
    already at the path, the file system is exactly as before. *)
Theorem constructor_establishes_directory (storageDirPath : string) (st : State) :
  fst (FileStorageAdapter storageDirPath st) = Val tt ->
  let st' := snd (FileStorageAdapter storageDirPath st) in
  lookup_path (fs st') storageDirPath = Some Dir /\
  _path (this st') = storageDirPath /\ _isOpen (this st') = true /\
  fs st ⊆ fs st' /\
  (lookup_path (fs st) storageDirPath <> None -> fs st' = fs st) /\
  heap st' = heap st /\ streams st' = streams st /\ stdout st' = stdout st.
Proof.
  unfold FileStorageAdapter, _validatePath, utils_existsSync, utils_isDirectory,
    mkdirp_sync, assert.
  js_unfold.
  destruct (lookup_path (fs st) storageDirPath) as [n|] eqn:Hlook; cbn [negb].
  - rewrite Hlook. destruct n as [data|]; cbn; [discriminate |].
    intros _. rewrite Hlook. repeat split. reflexivity.
  - unfold lookup_path in *.
    destruct (locate storageDirPath) as [at_|]; [| cbn; discriminate].
    destruct (path_too_long storageDirPath); [cbn; discriminate |].
    destruct (mkdirs (fs st) [] at_) as [[e fe]|f'] eqn:Hmk; [cbn; discriminate |].
    apply mkdirs_spec in Hmk as (Hdirs & Hsub & _); [| reflexivity].
    pose proof (Hdirs at_ [] (eq_sym (app_nil_r at_))) as Hdir.
    cbn in Hdir |- *. rewrite Hdir. cbn. intros _. rewrite Hdir.
    repeat split; [exact Hsub | congruence].
Qed.

Lemma constructor_establishes_directory_witness :
  let st' := snd (FileStorageAdapter "/store/new/deep" store_a) in
  read_file (fs st') "/store/a" = inr "{}" /\
  lookup_path (fs st') "/store/new/deep" = Some Dir /\
  _path (this st') = "/store/new/deep" /\ _isOpen (this st') = true /\
  fs store_a ⊆ fs st' /\
  (lookup_path (fs store_a) "/store/new/deep" <> None -> fs st' = fs store_a) /\
  heap st' = heap store_a /\ streams st' = streams store_a /\ stdout st' = stdout store_a.
Proof.
  cbv zeta. split; [vm_compute; reflexivity |].
  apply (constructor_establishes_directory "/store/new/deep" store_a).
  vm_compute. reflexivity.
Defined.

(** X19.  The constructor refuses a path that names a regular file: the
    assertion fails, and neither the adapter nor the file system is
    changed. *)
Theorem constructor_rejects_file (storageDirPath : string) (st : State) (data : string) :
  lookup_path (fs st) storageDirPath = Some (File data) ->
  FileStorageAdapter storageDirPath st
    = (Exn (AssertionError "Invalid directory path supplied"), st).
Proof.
  intros Hfile.
  unfold FileStorageAdapter, _validatePath, utils_existsSync, utils_isDirectory, assert.
  js_unfold. rewrite Hfile. cbn. now rewrite Hfile.
Qed.

Lemma constructor_rejects_file_witness :
  FileStorageAdapter "/store/a" store_a
    = (Exn (AssertionError "Invalid directory path supplied"), store_a).
Proof.
  apply (constructor_rejects_file "/store/a" store_a "{}"). vm_compute. reflexivity.
Defined.

(** X20.  When nothing is at the storage path, the path is an absolute
    one that the system accepts (no NUL byte, not too long, no ".." in it)
    and no part of it is a regular file, the constructor returns, having
    created the directory together with every missing parent: afterwards
    every directory on the way from the root to the storage path exists,
    what existed is unchanged, and nothing but directories on that way was
    added. *)
Theorem constructor_creates_missing_directories
    (storageDirPath : string) (st : State) (at_ : Path) :
  starts_with_slash storageDirPath = true ->
  no_dotdot storageDirPath = true ->
  has_nul storageDirPath = false ->
  too_long storageDirPath = false ->
  resolve storageDirPath = Some at_ ->
  node_at (fs st) at_ = None ->
  (forall k1 k2 data, at_ = k1 ++ k2 -> node_at (fs st) k1 <> Some (File data)) ->
  let st' := snd (FileStorageAdapter storageDirPath st) in
  fst (FileStorageAdapter storageDirPath st) = Val tt /\
  (forall k1 k2, at_ = k1 ++ k2 -> node_at (fs st') k1 = Some Dir) /\
  fs st ⊆ fs st' /\
  (forall q n, fs st' !! q = Some n ->
               fs st !! q = Some n \/ (n = Dir /\ exists k2, at_ = q ++ k2)).
Proof.
  intros _ _ Hnul Hlong Hp Hnone Hfree. cbv zeta.
  destruct (resolve_short _ _ Hlong Hp) as [Hpath Hshort].
  destruct (mkdirs_succeeds at_ (fs st) [] Hshort) as [f' Hmk]; [exact Hfree |].
  pose proof (mkdirs_spec at_ (fs st) f' [] eq_refl Hmk) as (Hdirs & Hsub & Honly).
  cbn [app] in Hdirs, Honly.
  pose proof (Hdirs at_ [] (eq_sym (app_nil_r at_))) as Hdir.
  unfold FileStorageAdapter, _validatePath, utils_existsSync, utils_isDirectory,
    mkdirp_sync, assert.
  js_unfold. unfold lookup_path, locate. rewrite Hnul, Hp, Hnone. cbn [negb].
  rewrite Hpath, Hmk. cbn. rewrite Hdir. cbn.
  split; [reflexivity |]. split; [exact Hdirs |]. split; [exact Hsub |].
  intros q n Hq. destruct (Honly q n Hq) as [? | (-> & k1 & k2 & -> & ->)]; [now left |].
  right. split; [reflexivity |]. now exists k2.
Qed.

Lemma constructor_creates_missing_directories_witness :
  let st' := snd (FileStorageAdapter "/store/new/deep" store_a) in
  node_at (fs store_a) ["store"; "new"] = None /\
  node_at (fs st') ["store"; "new"] = Some Dir /\
  fst (FileStorageAdapter "/store/new/deep" store_a) = Val tt /\
  (forall k1 k2, ["store"; "new"; "deep"] = k1 ++ k2 -> node_at (fs st') k1 = Some Dir) /\
  fs store_a ⊆ fs st' /\
  (forall q n, fs st' !! q = Some n ->
               fs store_a !! q = Some n \/
               (n = Dir /\ exists k2, ["store"; "new"; "deep"] = q ++ k2)).
Proof.
  cbv zeta. split; [vm_compute; reflexivity |]. split; [vm_compute; reflexivity |].
  apply (constructor_creates_missing_directories "/store/new/deep" store_a
           ["store"; "new"; "deep"]);
    [vm_compute; reflexivity | vm_compute; reflexivity | vm_compute; reflexivity
    | vm_compute; reflexivity | vm_compute; reflexivity | vm_compute; reflexivity |].
  intros k1 k2 data Hsplit.
  destruct k1 as [|a [|b [|c [|d k1]]]]; cbn in Hsplit; try discriminate;
    injection Hsplit as <-; subst; vm_compute; discriminate.
Defined.

(** ** Keys and their files *)

Lemma resolve_absolute (root : string) :
  starts_with_slash root = true -> exists at_, resolve root = Some at_.
Proof.
  intros Habs. unfold resolve.
  destruct (String.eqb_spec root "") as [->|_]; [discriminate | eauto].
Qed.

Lemma simple_key_location (st : State) (key : string) (root : Path) :
  starts_with_slash (_path (this st)) = true ->
  resolve (_path (this st)) = Some root ->
  simple_name key = true ->
  resolve (key_path st key) = Some (root ++ [key]).
Proof.
  intros Habs Hroot Hk. apply simple_name_kept in Hk as (Hns & Hkept).
  unfold key_path. rewrite (resolve_path_join _ _ root Habs Hroot).
  destruct (String.eqb_spec key "") as [->|_]; [now destruct Hkept |].
  rewrite split_slash_no_slash by exact Hns. cbn [fold_left].
  now rewrite resolve_step_kept.
Qed.

Lemma simple_keys_differ (st : State) (key other : string) :
  starts_with_slash (_path (this st)) = true ->
  simple_name key = true ->
  simple_name other = true ->
  other <> key ->
  resolve (key_path st other) <> resolve (key_path st key).
Proof.
  intros Habs Hkey Hother Hne.
  destruct (resolve_absolute _ Habs) as [root Hroot].
  rewrite !(simple_key_location st _ root) by assumption.
  intros [= Heq]. apply app_inj_tail in Heq as [_ Heq]. congruence.
Qed.

(** X21.  With an absolute storage path, the file of a key that is one
    plain name (no separator in it, none of "", "." and "..") is the entry
    of that name directly in the storage directory; so two such keys that
    differ have different files. *)
Theorem simple_key_in_storage_directory (st : State) (key : string) (root : Path) :
  starts_with_slash (_path (this st)) = true ->
  resolve (_path (this st)) = Some root ->
  simple_name key = true ->
  resolve (key_path st key) = Some (root ++ [key]) /\
  (forall other, simple_name other = true -> other <> key ->
                 resolve (key_path st other) <> resolve (key_path st key)).
Proof.
  intros Habs Hroot Hkey.
  split; [now apply simple_key_location |].
  intros other Hother Hne. now apply simple_keys_differ.
Qed.

Lemma simple_key_in_storage_directory_witness :
  resolve (key_path store_a "a") = Some (["store"] ++ ["a"]) /\
  (forall other, simple_name other = true -> other <> "a" ->
                 resolve (key_path store_a other) <> resolve (key_path store_a "a")).
Proof.
  apply (simple_key_in_storage_directory store_a "a" ["store"]); reflexivity.
Defined.

(** X22.  With an absolute storage path, put and delete under one plain
    key leave the file of every other plain key as it was. *)
Theorem other_simple_keys_untouched
    (utils_ripemd160 : string -> string -> string)
    (st : State) (key other : string) (item : nat) :
  starts_with_slash (_path (this st)) = true ->
  simple_name key = true ->
  simple_name other = true ->
  other <> key ->
  lookup_path (fs (snd (_put utils_ripemd160 key item report st))) (key_path st other)
    = lookup_path (fs st) (key_path st other) /\
  lookup_path (fs (snd (_del key report st))) (key_path st other)
    = lookup_path (fs st) (key_path st other).
Proof.
  intros Habs Hkey Hother Hne.
  pose proof (simple_keys_differ st key other Habs Hkey Hother Hne) as Hdiff.
  split; [now apply put_leaves_other_paths | now apply del_leaves_other_paths].
Qed.

Lemma other_simple_keys_untouched_witness :
  fst (_put sample_ripemd160 "x" 0 report store_ax) = Val (Called None None) /\
  lookup_path (fs store_ax) (key_path store_ax "a") = Some (File "{}") /\
  lookup_path (fs (snd (_put sample_ripemd160 "x" 0 report store_ax))) (key_path store_ax "a")
    = lookup_path (fs store_ax) (key_path store_ax "a") /\
  lookup_path (fs (snd (_del "x" report store_ax))) (key_path store_ax "a")
    = lookup_path (fs store_ax) (key_path store_ax "a").
Proof.
  split; [vm_compute; reflexivity |].
  split; [vm_compute; reflexivity |].
  apply (other_simple_keys_untouched sample_ripemd160 store_ax "x" "a" 0);
    [reflexivity | reflexivity | reflexivity | discriminate].
Defined.

(** X23.  A key is not confined to the storage directory: with an absolute
    storage path [parent/d], the key "../n" names the entry [n] of
    [parent], beside the storage directory, and a put that succeeds under
    that key writes its file there. *)
Theorem parent_key_escapes_storage_directory
    (utils_ripemd160 : string -> string -> string)
    (st : State) (name : string) (parent : Path) (d : string) (item : nat) (o : Item) :
  starts_with_slash (_path (this st)) = true ->
  resolve (_path (this st)) = Some (parent ++ [d]) ->
  simple_name name = true ->
  heap st !! item = Some o ->
  let key := "../" +:+ name in
  fst (_put utils_ripemd160 key item report st) = Val (Called None None) ->
  resolve (key_path st key) = Some (parent ++ [name]) /\
  fs (snd (_put utils_ripemd160 key item report st)) !! (parent ++ [name])
    = Some (File (JSON_stringify (JObj (persisted utils_ripemd160 key o)))).
Proof.
  intros Habs Hroot Hname Ho. cbv zeta.
  apply simple_name_kept in Hname as (Hns & Hkept).
  assert (resolve (key_path st ("../" +:+ name)) = Some (parent ++ [name])) as Hloc.
  { unfold key_path. rewrite (resolve_path_join _ _ _ Habs Hroot).
    change (String.eqb ("../" +:+ name) "") with false. cbv iota.
    change ("../" +:+ name) with (".." +:+ String slash name).
    rewrite split_slash_app, (split_slash_no_slash name) by exact Hns.
    change (split_slash "..") with [".."]. cbn [app fold_left].
    change (resolve_step (parent ++ [d]) "..") with (removelast (parent ++ [d])).
    rewrite removelast_last. now rewrite resolve_step_kept. }
  rewrite (put_spec _ _ _ _ _ _ Ho). cbv zeta.
  destruct (has_nul _); [discriminate |].
  destruct (write_file _ _ _) as [e|f'] eqn:Hw;
    rewrite handler_report; cbn [fst snd]; [discriminate |].
  intros _. split; [exact Hloc |].
  apply write_file_inv in Hw as (at_ & Hp & _ & _ & _ & ->).
  cbn [fs with_fs]. rewrite Hloc in Hp. injection Hp as <-.
  apply lookup_insert_eq.
Qed.

Lemma parent_key_escapes_storage_directory_witness :
  resolve (key_path store_x ("../" +:+ "x")) = Some ([] ++ ["x"]) /\
  fs (snd (_put sample_ripemd160 ("../" +:+ "x") 0 report store_x)) !! ([] ++ ["x"])
    = Some (File (JSON_stringify
                    (JObj (persisted sample_ripemd160 ("../" +:+ "x")
                             [("foo", JNum 1); ("shard", JStr "ZZZ")])))).
Proof.
  apply (parent_key_escapes_storage_directory sample_ripemd160 store_x "x" [] "store" 0
           [("foo", JNum 1); ("shard", JStr "ZZZ")]);
    [reflexivity | reflexivity | reflexivity | reflexivity | vm_compute; reflexivity].
Defined.

Lemma has_nul_app (a b : string) : has_nul (a +:+ b) = has_nul a || has_nul b.
Proof.
  induction a as [|c a IH]; [reflexivity |].
  change (String c a +:+ b) with (String c (a +:+ b)).
  cbn [has_nul]. now rewrite IH, orb_assoc.
Qed.

Lemma split_slash_no_nul (p : string) :
  has_nul p = false -> Forall (fun seg => has_nul seg = false) (split_slash p).
Proof.
  induction p as [|c r IH]; cbn [has_nul split_slash].
  - repeat constructor.
  - intros H. apply orb_false_iff in H as [Hc Hr]. specialize (IH Hr).
    destruct (Ascii.eqb c slash).
    + constructor; [reflexivity | exact IH].
    + destruct (split_slash r) as [|seg rest].
      * repeat constructor. cbn. now rewrite Hc.
      * apply Forall_cons in IH as [Hseg Hrest].
        constructor; [cbn; now rewrite Hc | exact Hrest].
Qed.

Lemma removelast_Forall {A} (P : A -> Prop) (l : list A) :
  Forall P l -> Forall P (removelast l).
Proof. induction 1 as [|x [|y l] Hx Hl IHl]; cbn; auto. Qed.

Lemma normalize_step_no_nul (above : bool) (res : list string) (seg : string) :
  Forall (fun seg => has_nul seg = false) res ->
  has_nul seg = false ->
  Forall (fun seg => has_nul seg = false) (normalize_step above res seg).
Proof.
  intros Hres Hseg. unfold normalize_step.
  destruct (_ || _); [exact Hres |].
  destruct (String.eqb seg "..").
  - destruct (last res) as [l|].
    + destruct (String.eqb l "..").
      * destruct above; [| exact Hres]. apply Forall_app. split; [exact Hres |].
        repeat constructor.
      * now apply removelast_Forall.
    + destruct above; repeat constructor.
  - apply Forall_app. split; [exact Hres |]. repeat constructor. exact Hseg.
Qed.

Lemma join_slash_no_nul (segs : list string) :
  Forall (fun seg => has_nul seg = false) segs -> has_nul (join_slash segs) = false.
Proof.
  destruct segs as [|x xs]; [reflexivity |]. cbn [join_slash].
  intros H. apply Forall_cons in H as [Hx Hxs]. revert x Hx.
  induction Hxs as [|y ys Hy Hys IH]; intros x Hx; cbn [fold_left]; [exact Hx |].
  apply IH. rewrite !has_nul_app, Hx, Hy. reflexivity.
Qed.

(** path.normalize puts no NUL byte into a path. *)
Lemma path_normalize_no_nul (p : string) :
  has_nul p = false -> has_nul (path_normalize p) = false.
Proof.
  intros Hp. unfold path_normalize.
  destruct (String.eqb p ""); [reflexivity |]. cbv zeta.
  assert (has_nul (join_slash (fold_left (normalize_step (negb (starts_with_slash p)))
                                 (split_slash p) [])) = false) as Hbody.
  { apply join_slash_no_nul.
    pose proof (split_slash_no_nul p Hp) as Hall.
    assert (Forall (fun seg => has_nul seg = false) (@nil string)) as Hnil by constructor.
    revert Hnil. generalize (@nil string) as acc.
    induction Hall as [|x l Hx Hl IH]; intros acc Hacc; cbn [fold_left]; [exact Hacc |].
    apply IH. now apply normalize_step_no_nul. }
  destruct (String.eqb _ "").
  - destruct (starts_with_slash p); [reflexivity |].
    destruct (ends_with_slash p); reflexivity.
  - destruct (ends_with_slash p), (starts_with_slash p);
      rewrite ?has_nul_app, ?Hbody; reflexivity.
Qed.

(** X24.  The empty key names the storage directory itself: with an
    absolute storage path that is a directory, delete("") hands unlink's
    EISDIR to its callback, put("", i) hands the EISDIR of the write to its
    callback, get("") raises as on an existing key, and no file is
    changed. *)
Theorem empty_key_names_storage_directory
    (utils_ripemd160 : string -> string -> string) (StorageItem : Item -> Item)
    (st : State) (item : nat) (o : Item) :
  starts_with_slash (_path (this st)) = true ->
  lookup_path (fs st) (_path (this st)) = Some Dir ->
  heap st !! item = Some o ->
  resolve (key_path st "") = resolve (_path (this st)) /\
  _del "" report st = (Val (Called (Some (SystemError EISDIR "unlink")) None), st) /\
  fst (_put utils_ripemd160 "" item report st)
    = Val (Called (Some (SystemError EISDIR "open")) None) /\
  fs (snd (_put utils_ripemd160 "" item report st)) = fs st /\
  _get utils_ripemd160 StorageItem "" report st = (Exn (ReferenceError "self"), st).
Proof.
  intros Habs Hdir Ho.
  destruct (lookup_path_Some _ _ _ Hdir) as (Hnul & root & Hroot & Hnode).
  assert (resolve (key_path st "") = Some root) as Hloc
    by (unfold key_path; now rewrite (resolve_path_join _ _ root Habs Hroot)).
  assert (has_nul (key_path st "") = false) as Hnul'.
  { unfold key_path, path_join.
    destruct (String.eqb (_path (this st)) "") eqn:He; [| now apply path_normalize_no_nul].
    apply String.eqb_eq in He. rewrite He in Habs. discriminate. }
  assert (lookup_path (fs st) (key_path st "") = Some Dir) as Hkey
    by now rewrite (lookup_path_resolve _ _ root Hnul' Hloc).
  split; [congruence |].
  split; [now apply del_directory |].
  rewrite (put_spec _ _ _ _ _ _ Ho). cbv zeta. rewrite Hnul'.
  assert (forall data, write_file (fs st) (key_path st "") data
                       = inl (SystemError EISDIR "open")) as Hw.
  { intros data. unfold write_file, locate. now rewrite Hnul', Hloc, Hnode. }
  rewrite Hw, handler_report. cbn [fst snd fs with_heap].
  repeat split.
  apply get_hit_throws. congruence.
Qed.

Lemma empty_key_names_storage_directory_witness :
  resolve (key_path store_x "") = resolve (_path (this store_x)) /\
  _del "" report store_x = (Val (Called (Some (SystemError EISDIR "unlink")) None), store_x) /\
  fst (_put sample_ripemd160 "" 0 report store_x)
    = Val (Called (Some (SystemError EISDIR "open")) None) /\
  fs (snd (_put sample_ripemd160 "" 0 report store_x)) = fs store_x /\
  _get sample_ripemd160 sample_StorageItem "" report store_x
    = (Exn (ReferenceError "self"), store_x).
Proof.
  apply (empty_key_names_storage_directory sample_ripemd160 sample_StorageItem store_x 0
           [("foo", JNum 1); ("shard", JStr "ZZZ")]);
    [reflexivity | vm_compute; reflexivity | reflexivity].
Defined.
